(** * go-rpcgen: the stub generator of [example/arith.go], embedded in Rocq

    The generator reads a parsed Go file, walks it with two cooperating
    [ast.Visitor]s that share one [RPCGen] value, and renders the collected
    model through a text template.  Strings are Go strings, that is byte
    sequences; the [Imports] dictionary is a [gmap]; the shared [*RPCGen]
    is threaded explicitly through every function that mutates it; and
    [os.Exit] and [panic] are the two ways a computation stops early. *)

From Stdlib Require Import Ascii String List Arith Lia.
From stdpp Require Import base option list gmap strings sorting.

Set Default Goal Selector "!".
Set Warnings "-register-all".

(** ** Bytes and strings *)

Definition byte_of (n : nat) : ascii := ascii_of_nat n.

Definition dq : string := String (byte_of 34) "".
Definition nl : string := String (byte_of 10) "".
Definition tab : string := String (byte_of 9) "".

Module strings.

Definition is_lower (c : ascii) : bool :=
  (97 <=? nat_of_ascii c) && (nat_of_ascii c <=? 122).

Definition is_ascii (c : ascii) : bool := nat_of_ascii c <? 128.

(** The three bytes of U+FFFD, the replacement character. *)
Definition RuneError : string :=
  String (byte_of 239) (String (byte_of 191) (String (byte_of 189) "")).

(** [strings.ToUpper] on the one-byte string [s[0:1]], the only way the
    generator calls it.  An ASCII byte takes the fast path (a lower-case
    letter loses 32, any other byte stays); a byte from 0x80 up is not
    valid UTF-8 on its own and goes through [strings.Map], which writes
    U+FFFD for it. *)
Definition ToUpper1 (c : ascii) : string :=
  if is_ascii c then
    if is_lower c then String (byte_of (nat_of_ascii c - 32)) ""
    else String c ""
  else RuneError.

(** [strings.Cut]-like helper: the text before and after the first [sep]. *)
Fixpoint cut (sep : ascii) (s : string) : option (string * string) :=
  match s with
  | EmptyString => None
  | String c rest =>
      if Ascii.eqb c sep then Some (EmptyString, rest)
      else match cut sep rest with
           | Some (a, b) => Some (String c a, b)
           | None => None
           end
  end.

(** [strings.SplitN(s, sep, n)] for a one-byte separator and [n >= 0]:
    at most [n] pieces, the last one the unsplit remainder. *)
Fixpoint SplitN (s : string) (sep : ascii) (n : nat) : list string :=
  match n with
  | 0 => []
  | 1 => [s]
  | S n' =>
      match cut sep s with
      | Some (a, b) => a :: SplitN b sep n'
      | None => [s]
      end
  end.

(** [strings.Split(s, sep)] for a one-byte separator: every piece. *)
Fixpoint Split (s : string) (sep : ascii) : list string :=
  match s with
  | EmptyString => [EmptyString]
  | String c rest =>
      if Ascii.eqb c sep then EmptyString :: Split rest sep
      else match Split rest sep with
           | piece :: pieces => String c piece :: pieces
           | [] => [String c EmptyString]
           end
  end.

Definition Join (elems : list string) (sep : string) : string :=
  String.concat sep elems.

End strings.

Module filepath.

Definition slash : ascii := byte_of 47.

Fixpoint strip_trailing_slashes (rev_path : list ascii) : list ascii :=
  match rev_path with
  | c :: rest =>
      if Ascii.eqb c slash then strip_trailing_slashes rest else rev_path
  | [] => []
  end.

Fixpoint until_slash (rev_path : list ascii) : list ascii :=
  match rev_path with
  | c :: rest => if Ascii.eqb c slash then [] else c :: until_slash rest
  | [] => []
  end.

(** [filepath.Base] with [/] as the separator and no volume names: the
    empty path gives [.], trailing slashes are dropped, the text after
    the last remaining slash is kept, and a path of slashes gives [/]. *)
Definition Base (path : string) : string :=
  match path with
  | EmptyString => "."
  | _ =>
      let stripped := strip_trailing_slashes (List.rev (list_ascii_of_string path)) in
      match until_slash stripped with
      | [] => String slash ""
      | last => string_of_list_ascii (List.rev last)
      end
  end.

End filepath.

(** ** The syntax tree, as far as the generator looks at it *)

Record Position := { Filename : string; Line : nat; Column : nat }.

Module ast.

(** Type expressions.  [types] knows five shapes; every other
    [ast.Expr] (function, channel, struct and interface types,
    parenthesised types, literals, ...) is an [OtherExpr] that keeps the
    name [reflect.TypeOf] gives the node and the text the printer gives
    it.  In a [SelectorExpr] the field [Sel] is an [*ast.Ident], kept as
    its name. *)
Inductive Expr :=
| Ident (Name : string)
| StarExpr (X : Expr)
| SelectorExpr (X : Expr) (Sel : string)
| MapType (Key Value : Expr)
| ArrayType (Len : option Expr) (Elt : Expr)
| OtherExpr (kind text : string).

(** A parameter or result [ast.Field]: the identifiers bound to one type. *)
Record Field := { Pos : Position; Names : list string; Type_ : Expr }.

(** The [Type] of an entry of an interface's method list: a
    [*ast.FuncType] with its parameter list and its possibly absent
    result list, or any other expression (an embedded interface). *)
Inductive MethodType :=
| FuncType (Params : list Field) (Results : option (list Field))
| NotFunc (e : Expr).

(** An entry of [InterfaceType.Methods.List]. *)
Record Method := { MPos : Position; MNames : list string; MType : MethodType }.

(** [Path] is [Path.Value], the import literal with its quotes. *)
Record ImportSpec := { Name : option string; Path : string }.

(** The nodes [ast.Walk] hands to the visitors.  Only import specs, type
    specs and interface types make a visitor act; every other node is an
    [OtherNode] with its children in walk order.  The identifier and
    literal below an import spec and the field lists below an interface
    type hold neither import nor type specs and are left out. *)
Inductive Node :=
| ImportSpecNode (imp : ImportSpec)
| TypeSpecNode (name : string) (children : list Node)
| InterfaceTypeNode (Methods : list Method)
| OtherNode (children : list Node).

(** [ast.File]: the package name and the declarations. *)
Record File := { PkgName : string; Decls : list Node }.

End ast.

(** ** The generation model *)

Module Type_.
Record t := mk { Names : list string; LowerNames : list string; Type_ : string }.
End Type_.

Module Method.
Record t := mk { Name : string; Parameters : list Type_.t; Results : list Type_.t }.
End Method.

Module RPCGen.
Record t := mk {
  Service : string;
  Type_ : string;
  Package : string;
  Methods : list Method.t;
  Imports : gmap string bool;
  RPCType : string;
  CheckImports : list ast.ImportSpec
}.

Definition set_Imports (r : t) (m : gmap string bool) : t :=
  mk (Service r) (Type_ r) (Package r) (Methods r) m (RPCType r) (CheckImports r).
Definition set_Methods (r : t) (ms : list Method.t) : t :=
  mk (Service r) (Type_ r) (Package r) ms (Imports r) (RPCType r) (CheckImports r).
Definition set_CheckImports (r : t) (l : list ast.ImportSpec) : t :=
  mk (Service r) (Type_ r) (Package r) (Methods r) (Imports r) (RPCType r) l.
End RPCGen.

(** ** Early exits and the generator monad *)

(** How the process stops early: [fatalNode] and [fatalf] print a
    diagnostic and call [os.Exit(1)]; a [panic] is either the one [types]
    raises, carrying the node's kind, or a run-time slice or index error. *)
Inductive Stop :=
| FatalNode (pos : Position) (msg : string)
| Fatalf (msg : string)
| PanicUnknownExpr (kind : string)
| PanicBounds.

Inductive Res (A : Type) :=
| Done (a : A) (r : RPCGen.t)
| Stopped (e : Stop).
Arguments Done {A} a r.
Arguments Stopped {A} e.

Definition Gen (A : Type) : Type := RPCGen.t -> Res A.

Definition ret {A} (a : A) : Gen A := fun r => Done a r.
Definition stop {A} (e : Stop) : Gen A := fun _ => Stopped e.
Definition bind {A B} (c : Gen A) (k : A -> Gen B) : Gen B :=
  fun r => match c r with
           | Done a r' => k a r'
           | Stopped e => Stopped e
           end.
Definition get : Gen RPCGen.t := fun r => Done r r.
Definition modify (f : RPCGen.t -> RPCGen.t) : Gen unit := fun r => Done tt (f r).

Notation "'do' x <- c ; k" := (bind c (fun x => k))
  (at level 10, x name, c at level 100, k at level 200).
Notation "c ;; k" := (bind c (fun _ => k))
  (at level 100, k at level 200, right associativity).

Definition fatalNode {A} (pos : Position) (msg : string) : Gen A :=
  stop (FatalNode pos msg).

(** A plain result that may panic, lifted into the monad. *)
Definition lift {A} (x : Stop + A) : Gen A :=
  match x with inl e => stop e | inr a => ret a end.

(** [for _, x := range xs { body }] *)
Fixpoint for_each {A} (xs : list A) (body : A -> Gen unit) : Gen unit :=
  match xs with
  | [] => ret tt
  | x :: rest => body x ;; for_each rest body
  end.

(** [for _, x := range xs { acc = body(acc, x) }] *)
Fixpoint fold_each {A S} (xs : list A) (acc : S) (body : S -> A -> Gen S) : Gen S :=
  match xs with
  | [] => ret acc
  | x :: rest => do acc' <- body acc x; fold_each rest acc' body
  end.

(** ** The type formatter *)

Module printer.

(** [printer.Fprint] on a type expression: the expression as source text. *)
Fixpoint Fprint (e : ast.Expr) : string :=
  match e with
  | ast.Ident name => name
  | ast.StarExpr x => "*" +:+ Fprint x
  | ast.SelectorExpr x sel => Fprint x +:+ "." +:+ sel
  | ast.MapType key value => "map[" +:+ Fprint key +:+ "]" +:+ Fprint value
  | ast.ArrayType len elt =>
      "[" +:+ match len with Some l => Fprint l | None => "" end
          +:+ "]" +:+ Fprint elt
  | ast.OtherExpr _ text => text
  end.

End printer.

Definition dot : ascii := byte_of 46.
Definition comma : ascii := byte_of 44.

Fixpoint types (t : ast.Expr) : Stop + list string :=
  match t with
  | ast.StarExpr x => types x
  | ast.SelectorExpr x sel =>
      match types x with
      | inr xs => inr [strings.Join (xs ++ [sel]) "."]
      | inl e => inl e
      end
  | ast.MapType key value =>
      match types key with
      | inr keys =>
          match types value with
          | inr values => inr (keys ++ values)
          | inl e => inl e
          end
      | inl e => inl e
      end
  | ast.ArrayType _ elt => types elt
  | ast.Ident name => inr [name]
  | ast.OtherExpr kind _ => inl (PanicUnknownExpr kind)
  end.

(** [imp.Path.Value[1 : len(imp.Path.Value)-1]]: the literal without its
    quotes; the slice expression panics on a literal shorter than two bytes. *)
Definition importPath (imp : ast.ImportSpec) : Stop + string :=
  let value := ast.Path imp in
  if String.length value <? 2 then inl PanicBounds
  else inr (substring 1 (String.length value - 2) value).

(** [r.Imports[key] = true] *)
Definition register (key : string) : Gen unit :=
  modify (fun r => RPCGen.set_Imports r (<[key := true]> (RPCGen.Imports r))).

(** The body of the loop over [r.CheckImports] for the qualifier [parts[0]]. *)
Definition checkImport (qualifier : string) (imp : ast.ImportSpec) : Gen unit :=
  do path <- lift (importPath imp);
  let by_base :=
    if String.eqb (filepath.Base path) qualifier then register path else ret tt in
  match ast.Name imp with
  | Some name =>
      if String.eqb name qualifier then register (name +:+ " " +:+ path)
      else by_base
  | None => by_base
  end.

(** The body of the loop over [types(field.Type)]. *)
Definition resolveImports (typeName : string) : Gen unit :=
  match strings.SplitN typeName dot 2 with
  | qualifier :: _ :: _ =>
      do r <- get;
      for_each (RPCGen.CheckImports r) (checkImport qualifier)
  | _ => ret tt
  end.

(** The loop over [field.Names]; [lowerName[0:1]] panics on an empty name. *)
Fixpoint bindNames (names : list string) (t : Type_.t) : Stop + Type_.t :=
  match names with
  | [] => inr t
  | lowerName :: rest =>
      match lowerName with
      | EmptyString => inl PanicBounds
      | String first remainder =>
          let name := strings.ToUpper1 first +:+ remainder in
          bindNames rest
            (Type_.mk (Type_.Names t ++ [name])
                      (Type_.LowerNames t ++ [lowerName])
                      (Type_.Type_ t))
      end
  end.

Definition unnamed_msg : string :=
  "RPC interface parameters and results must all be named".

Definition formatType (field : ast.Field) : Gen Type_.t :=
  let typeBuf := printer.Fprint (ast.Type_ field) in
  (match ast.Names field with
   | [] => fatalNode (ast.Pos field) unnamed_msg
   | _ => ret tt
   end) ;;
  do typeNames <- lift (types (ast.Type_ field));
  for_each typeNames resolveImports ;;
  lift (bindNames (ast.Names field) (Type_.mk [] [] typeBuf)).

(** ** The interface extractor *)

(** ["method %s must have error as last return value"] *)
Definition no_error_msg (name : string) : string :=
  "method " +:+ name +:+ " must have error as last return value".

Definition addParameter (method : Method.t) (v : ast.Field) : Gen Method.t :=
  do param <- formatType v;
  ret (Method.mk (Method.Name method)
                 (Method.Parameters method ++ [param])
                 (Method.Results method)).

Definition addResult (acc : bool * Method.t) (v : ast.Field) : Gen (bool * Method.t) :=
  let '(hasError, method) := acc in
  do result <- formatType v;
  if String.eqb (Type_.Type_ result) "error" then ret (true, method)
  else ret (hasError,
            Method.mk (Method.Name method)
                      (Method.Parameters method)
                      (Method.Results method ++ [result])).

(** The body of the loop of [VisitMethodList] for one entry [m]. *)
Definition visitMethod (m : ast.Method) : Gen unit :=
  match ast.MType m with
  | ast.FuncType params results =>
      match ast.MNames m with
      | [] => stop PanicBounds
      | name :: _ =>
          do method <- fold_each params (Method.mk name [] []) addParameter;
          do acc <- fold_each (match results with Some l => l | None => [] end)
                              (false, method) addResult;
          let '(hasError, method) := acc in
          (if negb hasError then fatalNode (ast.MPos m) (no_error_msg (Method.Name method))
           else ret tt) ;;
          modify (fun r => RPCGen.set_Methods r (RPCGen.Methods r ++ [method]))
      end
  | ast.NotFunc _ => ret tt
  end.

Definition VisitMethodList (methods : list ast.Method) : Gen unit :=
  for_each methods visitMethod.

(** ** The two visitors and [ast.Walk] *)

(** The two [ast.Visitor]s: [*RPCGen] and [*InterfaceGen], which embeds
    the same [*RPCGen]. *)
Inductive Visitor := VRPCGen | VInterfaceGen.

Definition RPCGen_Visit (node : ast.Node) : Gen Visitor :=
  match node with
  | ast.ImportSpecNode n =>
      modify (fun r => RPCGen.set_CheckImports r (RPCGen.CheckImports r ++ [n])) ;;
      ret VRPCGen
  | ast.TypeSpecNode name _ =>
      do r <- get;
      if String.eqb name (RPCGen.Type_ r) then ret VInterfaceGen else ret VRPCGen
  | _ => ret VRPCGen
  end.

Definition InterfaceGen_Visit (node : ast.Node) : Gen Visitor :=
  match node with
  | ast.InterfaceTypeNode methods => VisitMethodList methods ;; ret VRPCGen
  | _ => ret VRPCGen
  end.

Definition Visit (v : Visitor) (node : ast.Node) : Gen Visitor :=
  match v with
  | VRPCGen => RPCGen_Visit node
  | VInterfaceGen => InterfaceGen_Visit node
  end.

(** [ast.Walk]: visit the node, then walk its children in order with the
    visitor that call returned.  Neither visitor ever returns [nil], and
    the closing [Visit(nil)] changes nothing. *)
Fixpoint Walk (v : Visitor) (node : ast.Node) (r : RPCGen.t) : Res unit :=
  match Visit v node r with
  | Stopped e => Stopped e
  | Done w r1 =>
      let walkList :=
        fix walkList (nodes : list ast.Node) (r : RPCGen.t) : Res unit :=
          match nodes with
          | [] => Done tt r
          | n :: rest =>
              match Walk w n r with
              | Done _ r' => walkList rest r'
              | Stopped e => Stopped e
              end
          end in
      match node with
      | ast.TypeSpecNode _ children | ast.OtherNode children => walkList children r1
      | _ => Done tt r1
      end
  end.

(** The children of a node and the walk of a list of nodes, as [Walk]
    has them inside. *)
Definition children (node : ast.Node) : list ast.Node :=
  match node with
  | ast.TypeSpecNode _ nodes | ast.OtherNode nodes => nodes
  | _ => []
  end.

Fixpoint WalkList (v : Visitor) (nodes : list ast.Node) (r : RPCGen.t) : Res unit :=
  match nodes with
  | [] => Done tt r
  | n :: rest =>
      match Walk v n r with
      | Done _ r' => WalkList v rest r'
      | Stopped e => Stopped e
      end
  end.

(** [ast.Walk(gen, f)]: the file node itself makes [RPCGen.Visit] do
    nothing, so the walk is the walk of its declarations. *)
Definition WalkFile (f : ast.File) : Gen unit :=
  Walk VRPCGen (ast.OtherNode (ast.Decls f)).

(** ** The template renderer *)

Definition FieldList (fields : list Type_.t) (prefix delim : string)
    (withTypes public : bool) : string :=
  strings.Join
    (map (fun p =>
            let suffix := if withTypes then " " +:+ Type_.Type_ p else "" in
            let names := if public then Type_.Names p else Type_.LowerNames p in
            strings.Join (map (fun n => prefix +:+ n) names) ", " +:+ suffix)
         fields)
    delim.

Definition publicfields (fields : list Type_.t) : string :=
  FieldList fields "" (nl +:+ tab) true true.
Definition refswithprefix (prefix : string) (fields : list Type_.t) : string :=
  FieldList fields prefix ", " false false.
Definition publicrefswithprefix (prefix : string) (fields : list Type_.t) : string :=
  FieldList fields prefix ", " false true.
Definition functionargs (fields : list Type_.t) : string :=
  FieldList fields "" ", " true false.

(** [{{range $key, $value := .Imports}}]: a template ranges over a map in
    sorted key order. *)
Definition rangeKeys (imports : gmap string bool) : list string :=
  merge_sort String.le (map fst (map_to_list imports)).

Definition importLine (key : string) : string :=
  "  " +:+ dq +:+ key +:+ dq +:+ nl.

Definition importBlock (gen : RPCGen.t) : string :=
  "import (" +:+ nl +:+
  String.concat "" (map importLine (rangeKeys (RPCGen.Imports gen))) +:+
  ")" +:+ nl.

(** [{{if .Results}}, {{end}}] *)
Definition commaIf (fields : list Type_.t) : string :=
  match fields with [] => "" | _ => ", " end.

(** The body of the first [{{range .Methods}}]: request struct, response
    struct and dispatcher method. *)
Definition serviceBlock (type : string) (m : Method.t) : string :=
  nl +:+
  "type " +:+ type +:+ Method.Name m +:+ "Request struct {" +:+ nl +:+
  tab +:+ publicfields (Method.Parameters m) +:+ nl +:+
  "}" +:+ nl +:+
  nl +:+
  "type " +:+ type +:+ Method.Name m +:+ "Response struct {" +:+ nl +:+
  tab +:+ publicfields (Method.Results m) +:+ nl +:+
  "}" +:+ nl +:+
  nl +:+
  "func (s *" +:+ type +:+ "Service) " +:+ Method.Name m +:+
    "(request *" +:+ type +:+ Method.Name m +:+ "Request, response *" +:+
    type +:+ Method.Name m +:+ "Response) (err error) {" +:+ nl +:+
  tab +:+ publicrefswithprefix "response." (Method.Results m) +:+
    commaIf (Method.Results m) +:+ "err = s.impl." +:+ Method.Name m +:+ "(" +:+
    publicrefswithprefix "request." (Method.Parameters m) +:+ ")" +:+ nl +:+
  tab +:+ "return" +:+ nl +:+
  "}" +:+ nl.

(** The body of the second [{{range .Methods}}]: the client proxy method. *)
Definition clientBlock (type service : string) (m : Method.t) : string :=
  nl +:+
  "func (_c *" +:+ type +:+ "Client) " +:+ Method.Name m +:+ "(" +:+
    functionargs (Method.Parameters m) +:+ ") (" +:+
    functionargs (Method.Results m) +:+ commaIf (Method.Results m) +:+
    "err error) {" +:+ nl +:+
  tab +:+ "_request := &" +:+ type +:+ Method.Name m +:+ "Request{" +:+
    refswithprefix "" (Method.Parameters m) +:+ "}" +:+ nl +:+
  tab +:+ "_response := &" +:+ type +:+ Method.Name m +:+ "Response{}" +:+ nl +:+
  tab +:+ "err = _c.client.Call(" +:+ dq +:+ service +:+ "." +:+ Method.Name m +:+ dq +:+
    ", _request, _response)" +:+ nl +:+
  tab +:+ "return " +:+ publicrefswithprefix "_response." (Method.Results m) +:+
    commaIf (Method.Results m) +:+ "err" +:+ nl +:+
  "}" +:+ nl.

Definition header (gen : RPCGen.t) : string :=
  "// Generated by go-rpcgen. Do not modify." +:+ nl +:+
  nl +:+
  "package " +:+ RPCGen.Package gen +:+ nl +:+
  nl +:+
  importBlock gen +:+
  nl.

Definition servicePreamble (gen : RPCGen.t) : string :=
  let type := RPCGen.Type_ gen in
  "type " +:+ type +:+ "Service struct {" +:+ nl +:+
  tab +:+ "impl " +:+ type +:+ nl +:+
  "}" +:+ nl +:+
  nl +:+
  "func New" +:+ type +:+ "Service(impl " +:+ type +:+ ") *" +:+ type +:+ "Service {" +:+ nl +:+
  tab +:+ "return &" +:+ type +:+ "Service{impl}" +:+ nl +:+
  "}" +:+ nl +:+
  nl +:+
  "func Register" +:+ type +:+ "Service(server *rpc.Server, impl " +:+ type +:+ ") error {" +:+ nl +:+
  tab +:+ "return server.RegisterName(" +:+ dq +:+ RPCGen.Service gen +:+ dq +:+
    ", New" +:+ type +:+ "Service(impl))" +:+ nl +:+
  "}" +:+ nl.

Definition clientPreamble (gen : RPCGen.t) : string :=
  let type := RPCGen.Type_ gen in
  nl +:+
  "type " +:+ type +:+ "Client struct {" +:+ nl +:+
  tab +:+ "client " +:+ RPCGen.RPCType gen +:+ nl +:+
  "}" +:+ nl +:+
  nl +:+
  "func Dial" +:+ type +:+ "Client(addr string) (*" +:+ type +:+ "Client, error) {" +:+ nl +:+
  tab +:+ "client, err := rpc.Dial(" +:+ dq +:+ "tcp" +:+ dq +:+ ", addr)" +:+ nl +:+
  tab +:+ "return &" +:+ type +:+ "Client{client}, err" +:+ nl +:+
  "}" +:+ nl +:+
  nl +:+
  "func New" +:+ type +:+ "Client(client " +:+ RPCGen.RPCType gen +:+ ") *" +:+ type +:+ "Client {" +:+ nl +:+
  tab +:+ "return &" +:+ type +:+ "Client{client}" +:+ nl +:+
  "}" +:+ nl +:+
  nl +:+
  "func (_c *" +:+ type +:+ "Client) Close() error {" +:+ nl +:+
  tab +:+ "return _c.client.Close()" +:+ nl +:+
  "}" +:+ nl.

(** [t.Execute(out, gen)] on [rpcTemplate]. *)
Definition render (gen : RPCGen.t) : string :=
  header gen +:+
  servicePreamble gen +:+
  String.concat "" (map (serviceBlock (RPCGen.Type_ gen)) (RPCGen.Methods gen)) +:+
  clientPreamble gen +:+
  String.concat ""
    (map (clientBlock (RPCGen.Type_ gen) (RPCGen.Service gen)) (RPCGen.Methods gen)).

(** ** The command *)

(** The flags after [flag.Parse], defaults included. *)
Record Flags := {
  source : string;
  rpcType : string;
  target : string;
  importsFlag : string;
  packageFlag : string;
  serviceName : string;
  rpcClientTypeFlag : string
}.

(** What the run finds around it: its own name, what the parser makes of
    the source file, whether the target can be created, whether the text
    the template produces can be written to it, and how [go fmt] takes the
    written file. *)
Record World := {
  Args0 : string;
  ParseFile : string -> string + ast.File;
  CreateError : string -> option string;
  WriteError : string -> string -> option string;
  GoFmtError : string -> string -> option string
}.

(** What a run does to the world around it, in order: a diagnostic or a
    panic on standard error, the creation of the target file, the rendered
    text written to it, the closing message, and the call of [go fmt]. *)
Inductive Event :=
| Stderr (why : Stop)
| Create (path : string)
| WriteOut (path text : string)
| Stdout (text : string)
| GoFmt (path : string).

(** A finished run: what it did and the exit code of the process. *)
Record Run := { events : list Event; exit_code : nat }.

Definition exit_of (e : Stop) : nat :=
  match e with
  | FatalNode _ _ | Fatalf _ => 1
  | PanicUnknownExpr _ | PanicBounds => 2
  end.

(** A run that ends in [fatalf], [fatalNode] or a panic before it has
    touched the target file. *)
Definition fatal (e : Stop) : Run := {| events := [Stderr e]; exit_code := exit_of e |}.

(** [strings.Join(parts[:len(parts)-1], ".") + "rpc.go"] *)
Definition defaultTarget (source : string) : string :=
  let parts := strings.Split source dot in
  strings.Join (removelast parts) "." +:+ "rpc.go".

(** [imports], filled from the [--imports] flag. *)
Definition flagImports (importsFlag : string) : gmap string bool :=
  if String.eqb importsFlag "" then ∅
  else foldl (fun imports imp => <[imp := true]> imports) ∅
             (strings.Split importsFlag comma).

(** The value [gen] that [main] hands to [ast.Walk]. *)
Definition newRPCGen (flags : Flags) (f : ast.File) : RPCGen.t :=
  RPCGen.mk
    (if String.eqb (serviceName flags) "" then rpcType flags else serviceName flags)
    (rpcType flags)
    (if String.eqb (packageFlag flags) "" then ast.PkgName f else packageFlag flags)
    []
    (flagImports (importsFlag flags))
    (rpcClientTypeFlag flags)
    [].

(** [*target] once [main] has filled in its default. *)
Definition targetPath (flags : Flags) : string :=
  if String.eqb (target flags) "" then defaultTarget (source flags)
  else target flags.

(** [main], from the parsed flags on.  The template is a constant that
    parses, so the [fatalf] behind [Parse] never fires.  Every field and
    function the template names exists, so [t.Execute] fails only when a
    write to the created file fails; the run then ends in
    [fatalf("failed to execute template: %s", err)] with the target created,
    no closing message and no [go fmt].  How much of the text had reached
    the file by then is not recorded. *)
Definition main (w : World) (flags : Flags) : Run :=
  if String.eqb (source flags) "" || String.eqb (rpcType flags) ""
  then fatal (Fatalf "expected --source and --type")
  else
    let target := targetPath flags in
    match ParseFile w (source flags) with
    | inl err => fatal (Fatalf ("failed to parse " +:+ source flags +:+ ": " +:+ err))
    | inr f =>
        match WalkFile f (newRPCGen flags f) with
        | Stopped e => fatal e
        | Done _ gen =>
            match CreateError w target with
            | Some err =>
                fatal (Fatalf ("failed to create output file " +:+ target +:+ ": " +:+ err))
            | None =>
                let text := render gen in
                match WriteError w target text with
                | Some err =>
                    {| events := [Create target;
                                  Stderr (Fatalf ("failed to execute template: " +:+ err))];
                       exit_code := 1 |}
                | None =>
                    let done :=
                      [Create target; WriteOut target text;
                       Stdout (Args0 w +:+ ": wrote RPC stubs for " +:+ rpcType flags
                               +:+ " to " +:+ target +:+ nl);
                       GoFmt target] in
                    match GoFmtError w target text with
                    | Some err =>
                        {| events := done ++ [Stderr (Fatalf ("failed to run go fmt on "
                                                               +:+ target +:+ ": " +:+ err))];
                           exit_code := 1 |}
                    | None => {| events := done; exit_code := 0 |}
                    end
                end
            end
        end
    end.

(** ** Notions the properties are stated with *)

(** *** What a successful extraction returns *)

(** The public name the loop over [field.Names] builds from a name. *)
Definition publicName (lowerName : string) : string :=
  match lowerName with
  | EmptyString => EmptyString
  | String first remainder => strings.ToUpper1 first +:+ remainder
  end.

(** The [Type] record a successful [formatType] returns for a field. *)
Definition formatted (field : ast.Field) : Type_.t :=
  Type_.mk (map publicName (ast.Names field)) (ast.Names field)
           (printer.Fprint (ast.Type_ field)).

(** [formatType] on every field of a list, from first to last. *)
Fixpoint formatFields (fields : list ast.Field) : Gen (list Type_.t) :=
  match fields with
  | [] => ret []
  | v :: rest =>
      do t <- formatType v;
      do ts <- formatFields rest;
      ret (t :: ts)
  end.

(** [t.Results.List], empty when [t.Results] is [nil]. *)
Definition resultList (results : option (list ast.Field)) : list ast.Field :=
  match results with Some l => l | None => [] end.

(** [result.Type == "error"] *)
Definition isError (t : Type_.t) : bool := String.eqb (Type_.Type_ t) "error".

(** The entry is a function signature. *)
Definition isFunc (m : ast.Method) : bool :=
  match ast.MType m with
  | ast.FuncType _ _ => true
  | ast.NotFunc _ => false
  end.

(** The [Method] record of one entry of the method list, read off the
    declaration: its name, its parameters in declaration order, and its
    results in declaration order without those of type [error].  An entry
    that is not a function signature has none. *)
Definition translate (m : ast.Method) : list Method.t :=
  match ast.MType m, ast.MNames m with
  | ast.FuncType params results, name :: _ =>
      [Method.mk name (map formatted params)
                 (filter (fun t => isError t = false) (map formatted (resultList results)))]
  | _, _ => []
  end.

(** *** Names, shapes and references *)

(** ASCII upper-casing of one byte: a lower-case letter becomes its
    capital, every other byte stays. *)
Definition upper (c : ascii) : ascii :=
  if strings.is_lower c then byte_of (nat_of_ascii c - 32) else c.

(** A name with its first byte upper-cased and the remainder unchanged. *)
Definition capitalized (name : string) : string :=
  match name with
  | EmptyString => EmptyString
  | String first remainder => String (upper first) remainder
  end.

(** The name starts with a byte below 0x80. *)
Definition starts_ascii (name : string) : bool :=
  match name with
  | EmptyString => false
  | String first _ => strings.is_ascii first
  end.

(** The expressions [types] walks without a panic: no other shape below
    a pointer, a selector's operand, a map's key or value, or an element
    type.  An array length is never looked at. *)
Fixpoint supported (e : ast.Expr) : bool :=
  match e with
  | ast.Ident _ => true
  | ast.StarExpr x => supported x
  | ast.SelectorExpr x _ => supported x
  | ast.MapType key value => supported key && supported value
  | ast.ArrayType _ elt => supported elt
  | ast.OtherExpr _ _ => false
  end.

(** The byte [c] occurs in [s]. *)
Fixpoint has_byte (c : ascii) (s : string) : bool :=
  match s with
  | EmptyString => false
  | String x rest => Ascii.eqb x c || has_byte c rest
  end.

(** [refers q name e]: the qualified reference [q.name] stands in the
    type expression [e], at the top or below pointers, map keys, map
    values and array or slice elements. *)
Inductive refers (q name : string) : ast.Expr -> Prop :=
| refers_here : refers q name (ast.SelectorExpr (ast.Ident q) name)
| refers_star x : refers q name x -> refers q name (ast.StarExpr x)
| refers_key key value : refers q name key -> refers q name (ast.MapType key value)
| refers_value key value : refers q name value -> refers q name (ast.MapType key value)
| refers_elt len elt : refers q name elt -> refers q name (ast.ArrayType len elt).

(** [r.Imports[key]] is there and true. *)
Definition registered (key : string) (r : RPCGen.t) : Prop :=
  RPCGen.Imports r !! key = Some true.

(** What the loop over [r.CheckImports] leaves behind for one import [imp]
    and the qualifier [q]. *)
Definition resolved (q : string) (imp : ast.ImportSpec) (r : RPCGen.t) : Prop :=
  exists path, importPath imp = inr path /\
    (ast.Name imp = Some q -> registered (q +:+ " " +:+ path) r) /\
    (ast.Name imp <> Some q -> filepath.Base path = q -> registered path r).

(** *** What a step leaves alone *)

(** [r'] differs from [r] at most by registrations in [Imports]. *)
Record grows (r r' : RPCGen.t) : Prop := {
  grows_Service : RPCGen.Service r' = RPCGen.Service r;
  grows_Type : RPCGen.Type_ r' = RPCGen.Type_ r;
  grows_Package : RPCGen.Package r' = RPCGen.Package r;
  grows_Methods : RPCGen.Methods r' = RPCGen.Methods r;
  grows_RPCType : RPCGen.RPCType r' = RPCGen.RPCType r;
  grows_CheckImports : RPCGen.CheckImports r' = RPCGen.CheckImports r;
  grows_Imports : forall key, RPCGen.Imports r !! key = Some true ->
                              RPCGen.Imports r' !! key = Some true;
  grows_keys : forall key, is_Some (RPCGen.Imports r !! key) ->
                           is_Some (RPCGen.Imports r' !! key)
}.

(** [r'] differs from [r] at most by import specs appended to
    [CheckImports]. *)
Definition collects (r r' : RPCGen.t) : Prop :=
  RPCGen.Service r' = RPCGen.Service r /\
  RPCGen.Type_ r' = RPCGen.Type_ r /\
  RPCGen.Package r' = RPCGen.Package r /\
  RPCGen.Methods r' = RPCGen.Methods r /\
  RPCGen.Imports r' = RPCGen.Imports r /\
  RPCGen.RPCType r' = RPCGen.RPCType r.


(** *** Where the walk comes to *)

(** [declares T node]: a type declaration named [T] stands at [node] or
    below it. *)
Fixpoint declares (T : string) (node : ast.Node) : bool :=
  match node with
  | ast.TypeSpecNode name nodes => String.eqb name T || existsb (declares T) nodes
  | ast.OtherNode nodes => existsb (declares T) nodes
  | _ => false
  end.

(** [reaches v n r v' n' r']: the walk that starts at [n] with the
    visitor [v] and the model [r] comes to the node [n'] with the visitor
    [v'] and the model [r']. *)
Inductive reaches : Visitor -> ast.Node -> RPCGen.t ->
                    Visitor -> ast.Node -> RPCGen.t -> Prop :=
| reaches_here v n r : reaches v n r v n r
| reaches_below v n r w r1 before child after r2 v' n' r' :
    Visit v n r = Done w r1 ->
    children n = before ++ child :: after ->
    WalkList w before r1 = Done tt r2 ->
    reaches w child r2 v' n' r' ->
    reaches v n r v' n' r'.

(** [formats f flags field r]: in the run on the file [f] with [flags],
    the extractor calls [formatType] on [field] with the model [r], as a
    parameter or as a result of a method of an interface the walk comes
    to, after everything before it went through. *)
Inductive formats (f : ast.File) (flags : Flags) (field : ast.Field) (r : RPCGen.t) : Prop :=
| formats_parameter r0 pre m post r1 params results name names before after ts :
    reaches VRPCGen (ast.OtherNode (ast.Decls f)) (newRPCGen flags f)
            VInterfaceGen (ast.InterfaceTypeNode (pre ++ m :: post)) r0 ->
    VisitMethodList pre r0 = Done tt r1 ->
    ast.MType m = ast.FuncType params results ->
    ast.MNames m = name :: names ->
    params = before ++ field :: after ->
    formatFields before r1 = Done ts r ->
    formats f flags field r
| formats_result r0 pre m post r1 params results name names ps r2 before after ts :
    reaches VRPCGen (ast.OtherNode (ast.Decls f)) (newRPCGen flags f)
            VInterfaceGen (ast.InterfaceTypeNode (pre ++ m :: post)) r0 ->
    VisitMethodList pre r0 = Done tt r1 ->
    ast.MType m = ast.FuncType params results ->
    ast.MNames m = name :: names ->
    formatFields params r1 = Done ps r2 ->
    resultList results = before ++ field :: after ->
    formatFields before r2 = Done ts r ->
    formats f flags field r.

(** *** Sample inputs *)

Module sample.
Definition at_ (line col : nat) : Position :=
  {| Filename := "arith.go"; Line := line; Column := col |}.
Definition int : ast.Expr := ast.Ident "int".
Definition error : ast.Expr := ast.Ident "error".
Definition duration : ast.Expr := ast.SelectorExpr (ast.Ident "time") "Duration".
Definition field (pos : Position) (names : list string) (type : ast.Expr) : ast.Field :=
  {| ast.Pos := pos; ast.Names := names; ast.Type_ := type |}.
Definition flags : Flags :=
  {| source := "arith.go"; rpcType := "Arith"; target := "";
     importsFlag := "net/rpc"; packageFlag := ""; serviceName := "";
     rpcClientTypeFlag := "*rpc.Client" |}.
Definition gen0 : RPCGen.t :=
  RPCGen.mk "Arith" "Arith" "arith" [] (flagImports "net/rpc") "*rpc.Client" [].
(** The name [é]: the two bytes C3 A9. *)
Definition e_acute : string := String (byte_of 195) (String (byte_of 169) "").
(** The name [É]: the two bytes C3 89. *)
Definition E_acute : string := String (byte_of 195) (String (byte_of 137) "").
Definition method (pos : Position) (name : string) (params : list ast.Field)
    (results : option (list ast.Field)) : ast.Method :=
  {| ast.MPos := pos; ast.MNames := [name]; ast.MType := ast.FuncType params results |}.
(** [Add(a, b int) (result int, err error)] *)
Definition Add : ast.Method :=
  method (at_ 4 2) "Add" [field (at_ 4 6) ["a"; "b"] int]
         (Some [field (at_ 4 17) ["result"] int; field (at_ 4 29) ["err"] error]).
(** [Ping(a int)] *)
Definition Ping : ast.Method := method (at_ 5 2) "Ping" [field (at_ 5 7) ["a"] int] None.
(** [Foo() (err error, result int)] *)
Definition Foo : ast.Method :=
  method (at_ 5 2) "Foo" []
         (Some [field (at_ 5 9) ["err"] error; field (at_ 5 20) ["result"] int]).
(** [Twice() (first, second error)] *)
Definition Twice : ast.Method :=
  method (at_ 5 2) "Twice" [] (Some [field (at_ 5 11) ["first"; "second"] error]).
(** [Size(a int) int] *)
Definition Size : ast.Method :=
  method (at_ 5 2) "Size" [field (at_ 5 7) ["a"] int] (Some [field (at_ 5 14) [] int]).
(** [Watch(a int) (c chan int)] *)
Definition Watch : ast.Method :=
  method (at_ 5 2) "Watch" [field (at_ 5 8) ["a"] int]
         (Some [field (at_ 5 16) ["c"] (ast.OtherExpr "*ast.ChanType" "chan int")]).
(** [io.Reader], embedded *)
Definition Reader : ast.Method :=
  {| ast.MPos := at_ 6 2; ast.MNames := [];
     ast.MType := ast.NotFunc (ast.SelectorExpr (ast.Ident "io") "Reader") |}.
(** A file [package arith; type Arith interface { ... }]. *)
Definition file (methods : list ast.Method) : ast.File :=
  {| ast.PkgName := "arith";
     ast.Decls := [ast.OtherNode [ast.TypeSpecNode "Arith"
                     [ast.OtherNode []; ast.InterfaceTypeNode methods]]] |}.
Definition world (f : ast.File) : World :=
  {| Args0 := "go-rpcgen"; ParseFile := fun _ => inr f;
     CreateError := fun _ => None; WriteError := fun _ _ => None;
     GoFmtError := fun _ _ => None |}.

(** The same surroundings with a source file the parser rejects, a target
    that takes no data, and a [go fmt] that fails. *)
Definition unparsed (w : World) : World :=
  {| Args0 := Args0 w;
     ParseFile := fun _ => inl "arith.go:1:1: expected 'package'";
     CreateError := CreateError w; WriteError := WriteError w;
     GoFmtError := GoFmtError w |}.

Definition unwritable (w : World) : World :=
  {| Args0 := Args0 w; ParseFile := ParseFile w; CreateError := CreateError w;
     WriteError := fun path _ => Some ("write " +:+ path +:+ ": no space left on device");
     GoFmtError := GoFmtError w |}.

Definition unformattable (w : World) : World :=
  {| Args0 := Args0 w; ParseFile := ParseFile w; CreateError := CreateError w;
     WriteError := WriteError w;
     GoFmtError := fun _ _ => Some "exit status 2: " |}.
Definition flagsFor (type : string) : Flags :=
  {| source := "arith.go"; rpcType := type; target := "";
     importsFlag := "net/rpc"; packageFlag := ""; serviceName := "";
     rpcClientTypeFlag := "*rpc.Client" |}.
End sample.

Module sample_time.
(** [import "time"] and [Sleep(d time.Duration) (err error)],
    [Until(t *time.Time) (d time.Duration, err error)]. *)
Definition time : ast.ImportSpec := {| ast.Name := None; ast.Path := dq +:+ "time" +:+ dq |}.
Definition Sleep : ast.Method :=
  sample.method (sample.at_ 6 2) "Sleep"
    [sample.field (sample.at_ 6 8) ["d"] sample.duration]
    (Some [sample.field (sample.at_ 6 26) ["err"] sample.error]).
Definition Until : ast.Method :=
  sample.method (sample.at_ 7 2) "Until"
    [sample.field (sample.at_ 7 8) ["t"]
       (ast.StarExpr (ast.SelectorExpr (ast.Ident "time") "Time"))]
    (Some [sample.field (sample.at_ 7 22) ["d"] sample.duration;
           sample.field (sample.at_ 7 38) ["err"] sample.error]).
Definition file : ast.File :=
  {| ast.PkgName := "arith";
     ast.Decls := [ast.OtherNode [ast.ImportSpecNode time];
                   ast.OtherNode [ast.TypeSpecNode "Arith"
                     [ast.OtherNode []; ast.InterfaceTypeNode [Sleep; Until]]]] |}.
End sample_time.

(** *** What the walk visits *)

(** The visitor that [Visit] hands back for the children of a node, the
    requested type name being [T]. *)
Definition next (T : string) (v : Visitor) (node : ast.Node) : Visitor :=
  match v, node with
  | VRPCGen, ast.TypeSpecNode name _ => if String.eqb name T then VInterfaceGen else VRPCGen
  | _, _ => VRPCGen
  end.

(** The import specs that [RPCGen.Visit] sees in a subtree, in walk
    order. *)
Fixpoint importsSeen (T : string) (v : Visitor) (node : ast.Node) : list ast.ImportSpec :=
  match node with
  | ast.ImportSpecNode imp => match v with VRPCGen => [imp] | VInterfaceGen => [] end
  | ast.TypeSpecNode _ nodes | ast.OtherNode nodes =>
      flat_map (importsSeen T (next T v node)) nodes
  | ast.InterfaceTypeNode _ => []
  end.

(** The method entries that [InterfaceGen.Visit] hands to
    [VisitMethodList] in a subtree, in walk order: those of the interface
    types that are the type of a declaration named [T]. *)
Fixpoint methodsSeen (T : string) (v : Visitor) (node : ast.Node) : list ast.Method :=
  match node with
  | ast.InterfaceTypeNode methods => match v with VInterfaceGen => methods | VRPCGen => [] end
  | ast.TypeSpecNode _ nodes | ast.OtherNode nodes =>
      flat_map (methodsSeen T (next T v node)) nodes
  | ast.ImportSpecNode _ => []
  end.

(** What a walk that runs to its end has done to the model. *)
Record walked (T : string) (v : Visitor) (node : ast.Node) (r r' : RPCGen.t) : Prop := {
  walked_Service : RPCGen.Service r' = RPCGen.Service r;
  walked_Type : RPCGen.Type_ r' = RPCGen.Type_ r;
  walked_Package : RPCGen.Package r' = RPCGen.Package r;
  walked_RPCType : RPCGen.RPCType r' = RPCGen.RPCType r;
  walked_CheckImports :
    RPCGen.CheckImports r' = RPCGen.CheckImports r ++ importsSeen T v node;
  walked_Methods :
    RPCGen.Methods r' = RPCGen.Methods r ++ flat_map translate (methodsSeen T v node)
}.

Module sample_twice.
(** A file that declares [Arith] twice, as an interface at the top and as
    an interface inside a function body, and [Arith]-named structs aside:
    [import "time"; type Arith interface { Add }; type Other interface
    { Ping }; func f() { type Arith interface { Sleep } }]. *)
Definition file : ast.File :=
  {| ast.PkgName := "arith";
     ast.Decls :=
       [ast.OtherNode [ast.ImportSpecNode sample_time.time];
        ast.OtherNode [ast.TypeSpecNode "Arith"
                         [ast.OtherNode []; ast.InterfaceTypeNode [sample.Add]]];
        ast.OtherNode [ast.TypeSpecNode "Other"
                         [ast.OtherNode []; ast.InterfaceTypeNode [sample.Ping]]];
        ast.OtherNode [ast.OtherNode
          [ast.OtherNode [ast.TypeSpecNode "Arith"
                            [ast.OtherNode [];
                             ast.InterfaceTypeNode [sample_time.Sleep]]]]]] |}.
(** [type Arith struct { r interface { Ping(a int) } }]: the requested name
    on a type that is not an interface. *)
Definition struct_file : ast.File :=
  {| ast.PkgName := "arith";
     ast.Decls :=
       [ast.OtherNode [ast.TypeSpecNode "Arith"
          [ast.OtherNode [];
           ast.OtherNode [ast.OtherNode [ast.OtherNode
             [ast.OtherNode []; ast.InterfaceTypeNode [sample.Ping]]]]]]] |}.
Definition flags : Flags :=
  {| source := "arith.go"; rpcType := "Arith"; target := "out/stubs.go";
     importsFlag := "net/rpc"; packageFlag := "stubs"; serviceName := "Calc";
     rpcClientTypeFlag := "Caller" |}.
End sample_twice.

(** *** Import keys *)

(** Every key registered in [r] is registered in [s]. *)
Definition covers (r s : RPCGen.t) : Prop :=
  forall key, registered key r -> registered key s.

(** [key] is what the formatter registers for some import of [imps]: its
    path, or its alias, a space and its path. *)
Definition fromImport (imps : list ast.ImportSpec) (key : string) : Prop :=
  exists imp path,
    imp ∈ imps /\ importPath imp = inr path /\
    (key = path \/ exists alias, ast.Name imp = Some alias /\ key = alias +:+ " " +:+ path).

(** The import set of [r'] is that of [r] but for keys set to [true] that
    come from imports of [imps]. *)
Definition adds (imps : list ast.ImportSpec) (r r' : RPCGen.t) : Prop :=
  forall key,
    RPCGen.Imports r' !! key = RPCGen.Imports r !! key
    \/ (RPCGen.Imports r' !! key = Some true /\ fromImport imps key).

(** *** The two string methods of [Type] *)

(** [func (t *Type) NamesString() string] *)
Definition NamesString (t : Type_.t) : string := strings.Join (Type_.Names t) ", ".

(** [func (t *Type) LowerNamesString() string] *)
Definition LowerNamesString (t : Type_.t) : string := strings.Join (Type_.LowerNames t) ", ".

(** *** Well-formed records *)

(** A [Type] record with at least one name and as many public as original
    names. *)
Definition named (t : Type_.t) : Prop :=
  Type_.Names t <> [] /\ Type_.LowerNames t <> []
  /\ length (Type_.Names t) = length (Type_.LowerNames t).

(** A [Method] record whose parameters and results are all [named] and
    whose results hold no record of type [error]. *)
Definition sound (m : Method.t) : Prop :=
  Forall named (Method.Parameters m) /\ Forall named (Method.Results m)
  /\ Forall (fun t => isError t = false) (Method.Results m).

(** *** The groups of the rendered text, read off the declaration *)

(** The identifiers a field list declares, in declaration order. *)
Definition declared (fields : list ast.Field) : list string :=
  flat_map ast.Names fields.

(** The results of a signature whose type does not print as [error], in
    declaration order. *)
Definition keptResults (results : option (list ast.Field)) : list ast.Field :=
  filter (fun v => String.eqb (printer.Fprint (ast.Type_ v)) "error" = false)
         (resultList results).

(** One line of a request or response struct: the identifiers of one
    field, each with its first byte upper-cased, then the type. *)
Definition structLine (v : ast.Field) : string :=
  strings.Join (map publicName (ast.Names v)) ", " +:+ " " +:+ printer.Fprint (ast.Type_ v).

(** One group of a proxy signature: the identifiers of one field as they
    are declared, then the type. *)
Definition argument (v : ast.Field) : string :=
  strings.Join (ast.Names v) ", " +:+ " " +:+ printer.Fprint (ast.Type_ v).

(** The struct fields of the declared identifiers, each behind [prefix]. *)
Definition fieldRefs (prefix : string) (fields : list ast.Field) : string :=
  strings.Join (map (fun n => prefix +:+ publicName n) (declared fields)) ", ".

(** [", "] after a result list that is not empty. *)
Definition commaAfter (results : list ast.Field) : string :=
  match results with [] => "" | _ => ", " end.

(** The request struct, the response struct and the dispatcher of the
    method [name] with the parameter fields [params] and the result fields
    [results], as the template lays them out for the declaration. *)
Definition serviceGroup (type name : string) (params results : list ast.Field) : string :=
  nl +:+
  "type " +:+ type +:+ name +:+ "Request struct {" +:+ nl +:+
  tab +:+ strings.Join (map structLine params) (nl +:+ tab) +:+ nl +:+
  "}" +:+ nl +:+
  nl +:+
  "type " +:+ type +:+ name +:+ "Response struct {" +:+ nl +:+
  tab +:+ strings.Join (map structLine results) (nl +:+ tab) +:+ nl +:+
  "}" +:+ nl +:+
  nl +:+
  "func (s *" +:+ type +:+ "Service) " +:+ name +:+
    "(request *" +:+ type +:+ name +:+ "Request, response *" +:+
    type +:+ name +:+ "Response) (err error) {" +:+ nl +:+
  tab +:+ fieldRefs "response." results +:+
    commaAfter results +:+ "err = s.impl." +:+ name +:+ "(" +:+
    fieldRefs "request." params +:+ ")" +:+ nl +:+
  tab +:+ "return" +:+ nl +:+
  "}" +:+ nl.

(** The client proxy of the method, likewise. *)
Definition clientGroup (type service name : string)
    (params results : list ast.Field) : string :=
  nl +:+
  "func (_c *" +:+ type +:+ "Client) " +:+ name +:+ "(" +:+
    strings.Join (map argument params) ", " +:+ ") (" +:+
    strings.Join (map argument results) ", " +:+ commaAfter results +:+
    "err error) {" +:+ nl +:+
  tab +:+ "_request := &" +:+ type +:+ name +:+ "Request{" +:+
    strings.Join (declared params) ", " +:+ "}" +:+ nl +:+
  tab +:+ "_response := &" +:+ type +:+ name +:+ "Response{}" +:+ nl +:+
  tab +:+ "err = _c.client.Call(" +:+ dq +:+ service +:+ "." +:+ name +:+ dq +:+
    ", _request, _response)" +:+ nl +:+
  tab +:+ "return " +:+ fieldRefs "_response." results +:+
    commaAfter results +:+ "err" +:+ nl +:+
  "}" +:+ nl.

(** The service group and the client group of one entry of a method list:
    those of its first name, its parameters and its results less the ones
    of type [error]; an entry that is not a function signature has no
    text. *)
Definition serviceGroupOf (type : string) (m : ast.Method) : string :=
  match ast.MType m, ast.MNames m with
  | ast.FuncType params results, name :: _ =>
      serviceGroup type name params (keptResults results)
  | _, _ => ""
  end.

Definition clientGroupOf (type service : string) (m : ast.Method) : string :=
  match ast.MType m, ast.MNames m with
  | ast.FuncType params results, name :: _ =>
      clientGroup type service name params (keptResults results)
  | _, _ => ""
  end.

Module sample_order.
Definition string_ : ast.Expr := ast.Ident "string".
Definition bool_ : ast.Expr := ast.Ident "bool".
(** [Stat(path string, deep, follow bool) (size, count int, name string, err error)] *)
Definition Stat : ast.Method :=
  sample.method (sample.at_ 3 2) "Stat"
    [sample.field (sample.at_ 3 7) ["path"] string_;
     sample.field (sample.at_ 3 20) ["deep"; "follow"] bool_]
    (Some [sample.field (sample.at_ 3 40) ["size"; "count"] sample.int;
           sample.field (sample.at_ 3 57) ["name"] string_;
           sample.field (sample.at_ 3 70) ["err"] sample.error]).
(** [Stat], [io.Reader] and [Add], in this order. *)
Definition methods : list ast.Method := [Stat; sample.Reader; sample.Add].
End sample_order.

(** *** Entries of the import set *)





Module sample_alias.
(** [import rpc "net/rpc"] *)
Definition rpc : ast.ImportSpec :=
  {| ast.Name := Some "rpc"; ast.Path := dq +:+ "net/rpc" +:+ dq |}.
(** [c *rpc.Client] *)
Definition client : ast.Field :=
  sample.field (sample.at_ 6 8) ["c"]
    (ast.StarExpr (ast.SelectorExpr (ast.Ident "rpc") "Client")).
(** [Serve(c *rpc.Client) (err error)] and [Drop(c *rpc.Client) (err error)] *)
Definition Serve : ast.Method :=
  sample.method (sample.at_ 6 2) "Serve" [client]
    (Some [sample.field (sample.at_ 6 24) ["err"] sample.error]).
Definition Drop : ast.Method :=
  sample.method (sample.at_ 7 2) "Drop" [client]
    (Some [sample.field (sample.at_ 7 23) ["err"] sample.error]).
Definition file : ast.File :=
  {| ast.PkgName := "arith";
     ast.Decls := [ast.OtherNode [ast.ImportSpecNode rpc];
                   ast.OtherNode [ast.TypeSpecNode "Arith"
                     [ast.OtherNode []; ast.InterfaceTypeNode [Serve; Drop]]]] |}.
End sample_alias.

(** * Properties *)

(** ** The monad and its loops *)

Lemma for_each_app {A} (xs ys : list A) (body : A -> Gen unit) (r : RPCGen.t) :
  for_each (xs ++ ys) body r =
  match for_each xs body r with
  | Done _ r' => for_each ys body r'
  | Stopped e => Stopped e
  end.
Proof.
  revert r. induction xs as [|x xs IH]; intros r; simpl; [done|].
  unfold bind. destruct (body x r) as [[] r1|e]; [apply IH|done].
Qed.

(** A property of the model that every iteration keeps is kept by the loop. *)
Lemma for_each_keeps {A} (P : RPCGen.t -> Prop) (xs : list A) (body : A -> Gen unit) :
  (forall x r u r', body x r = Done u r' -> P r -> P r') ->
  forall r u r', for_each xs body r = Done u r' -> P r -> P r'.
Proof.
  intros Hbody. induction xs as [|x xs IH]; intros r u r' Hrun HP; simpl in Hrun.
  - unfold ret in Hrun. by inversion Hrun; subst.
  - unfold bind in Hrun. destruct (body x r) as [u1 r1|e] eqn:Hx; [|done].
    eapply IH; [exact Hrun|]. eapply Hbody; eauto.
Qed.

(** What the iteration for one element establishes under an invariant of
    the loop, and every iteration keeps, holds after the loop. *)
Lemma for_each_reaches {A} (P Q : RPCGen.t -> Prop) (xs : list A)
    (body : A -> Gen unit) (x : A) :
  x ∈ xs ->
  (forall y r u r', body y r = Done u r' -> P r -> P r') ->
  (forall r u r', body x r = Done u r' -> P r -> Q r') ->
  (forall y r u r', body y r = Done u r' -> Q r -> Q r') ->
  forall r u r', for_each xs body r = Done u r' -> P r -> Q r'.
Proof.
  intros Hin HP Hx Hkeep. induction xs as [|y ys IH]; intros r u r' Hrun Hr.
  - by apply elem_of_nil in Hin.
  - simpl in Hrun. unfold bind in Hrun.
    destruct (body y r) as [u1 r1|e] eqn:Hy; [|done].
    apply elem_of_cons in Hin as [->|Hin].
    + eapply (for_each_keeps Q); [exact Hkeep|exact Hrun|]. eapply Hx; eauto.
    + eapply IH; eauto.
Qed.

Lemma fold_each_app {A S} (xs ys : list A) (acc : S) (body : S -> A -> Gen S) (r : RPCGen.t) :
  fold_each (xs ++ ys) acc body r =
  match fold_each xs acc body r with
  | Done acc' r' => fold_each ys acc' body r'
  | Stopped e => Stopped e
  end.
Proof.
  revert acc r. induction xs as [|x xs IH]; intros acc r; simpl; [done|].
  unfold bind. destruct (body acc x r) as [acc1 r1|e]; [apply IH|done].
Qed.

(** ** What is left alone: everything but the import set *)

Lemma grows_refl r : grows r r.
Proof. by split. Qed.

Lemma grows_trans r1 r2 r3 : grows r1 r2 -> grows r2 r3 -> grows r1 r3.
Proof.
  intros [] []. split; try congruence; eauto.
Qed.

Lemma register_spec key r :
  register key r = Done tt (RPCGen.set_Imports r (<[key := true]> (RPCGen.Imports r))).
Proof. done. Qed.

Lemma register_grows key r u r' : register key r = Done u r' -> grows r r'.
Proof.
  rewrite register_spec. intros [= <- <-]. split; simpl; try done.
  - intros k Hk. destruct (decide (key = k)) as [->|Hne].
    + by rewrite lookup_insert_eq.
    + by rewrite lookup_insert_ne.
  - intros k Hk. destruct (decide (key = k)) as [->|Hne].
    + rewrite lookup_insert_eq. by eexists.
    + by rewrite lookup_insert_ne.
Qed.

Lemma register_registers key r u r' :
  register key r = Done u r' -> RPCGen.Imports r' !! key = Some true.
Proof. rewrite register_spec. intros [= <- <-]. simpl. apply lookup_insert_eq. Qed.

Lemma checkImport_grows q imp r u r' : checkImport q imp r = Done u r' -> grows r r'.
Proof.
  unfold checkImport, bind, lift. destruct (importPath imp) as [e|path]; [done|].
  unfold ret at 1.
  destruct (ast.Name imp) as [name|];
    repeat match goal with |- context [if ?b then _ else _] => destruct b end;
    try (apply register_grows);
    unfold ret; intros [= <- <-]; apply grows_refl.
Qed.

Lemma resolveImports_grows typeName r u r' :
  resolveImports typeName r = Done u r' -> grows r r'.
Proof.
  unfold resolveImports.
  destruct (strings.SplitN typeName dot 2) as [|q [|? ?]];
    try (unfold ret; intros [= <- <-]; apply grows_refl).
  unfold bind, get. intros Hrun.
  eapply (for_each_keeps (grows r)); [|exact Hrun|apply grows_refl].
  intros imp r1 u1 r2 Hstep Hg. eapply grows_trans; [exact Hg|].
  eapply checkImport_grows; eauto.
Qed.

(** ** The type formatter, step by step *)

Lemma formatType_unfold field r :
  formatType field r =
  match ast.Names field with
  | [] => Stopped (FatalNode (ast.Pos field) unnamed_msg)
  | _ :: _ =>
      match types (ast.Type_ field) with
      | inl e => Stopped e
      | inr typeNames =>
          match for_each typeNames resolveImports r with
          | Stopped e => Stopped e
          | Done _ r' =>
              match bindNames (ast.Names field)
                              (Type_.mk [] [] (printer.Fprint (ast.Type_ field))) with
              | inl e => Stopped e
              | inr t => Done t r'
              end
          end
      end
  end.
Proof.
  unfold formatType, bind, fatalNode, stop, ret, lift.
  destruct (ast.Names field); [done|].
  destruct (types (ast.Type_ field)); [done|].
  unfold ret. destruct (for_each _ _ r); [|done].
  by destruct (bindNames _ _).
Qed.

Lemma bindNames_inr names : forall t t',
  bindNames names t = inr t' ->
  t' = Type_.mk (Type_.Names t ++ map publicName names)
                (Type_.LowerNames t ++ names) (Type_.Type_ t)
  /\ Forall (fun n => n <> EmptyString) names.
Proof.
  induction names as [|n names IH]; intros t t' H; simpl in H.
  - inversion H; subst. rewrite !app_nil_r. by destruct t'.
  - destruct n as [|c tl]; [done|].
    apply IH in H as [-> Hall]. simpl. rewrite <- !app_assoc. simpl.
    split; [done|]. constructor; [done|exact Hall].
Qed.

Lemma bindNames_total names t :
  Forall (fun n => n <> EmptyString) names ->
  bindNames names t =
    inr (Type_.mk (Type_.Names t ++ map publicName names)
                  (Type_.LowerNames t ++ names) (Type_.Type_ t)).
Proof.
  revert t. induction names as [|n names IH]; intros t Hall; simpl.
  - rewrite !app_nil_r. by destruct t.
  - inversion Hall as [|? ? Hn Hrest]; subst. destruct n as [|c tl]; [done|].
    rewrite IH by done. simpl. by rewrite <- !app_assoc.
Qed.

(** A successful call returns the printed type and both name lists, and
    changes the model by import registrations only. *)
Lemma formatType_Done field r t r' :
  formatType field r = Done t r' ->
  ast.Names field <> [] /\
  Forall (fun n => n <> EmptyString) (ast.Names field) /\
  t = Type_.mk (map publicName (ast.Names field)) (ast.Names field)
               (printer.Fprint (ast.Type_ field)) /\
  (exists typeNames, types (ast.Type_ field) = inr typeNames /\
                     for_each typeNames resolveImports r = Done tt r') /\
  grows r r'.
Proof.
  rewrite formatType_unfold.
  destruct (ast.Names field) as [|n names] eqn:Hn; [done|].
  destruct (types (ast.Type_ field)) as [e|typeNames] eqn:Ht; [done|].
  destruct (for_each typeNames resolveImports r) as [[] r1|e] eqn:Hloop; [|done].
  destruct (bindNames _ _) as [e|t1] eqn:Hb; [done|].
  intros [= <- <-]. apply bindNames_inr in Hb as [-> Hall]. simpl.
  split_and!; try done.
  - by exists typeNames.
  - eapply (for_each_keeps (grows r)); [|exact Hloop|apply grows_refl].
    intros x r2 u r3 Hstep Hg. eapply grows_trans; [exact Hg|].
    eapply resolveImports_grows; eauto.
Qed.

(** ** Names *)

Lemma publicName_ascii name :
  starts_ascii name = true -> publicName name = capitalized name.
Proof.
  destruct name as [|c rest]; [done|]. simpl. intros Hc.
  unfold strings.ToUpper1, upper. rewrite Hc. by destruct (strings.is_lower c).
Qed.

(** C5, as amended. A [Type] record produced for a field with [n] bound
    identifiers has [n >= 1], both name lists of length [n], the original
    names equal to the declared identifiers, and at every index whose
    identifier starts with an ASCII byte the public name is that identifier
    with its first byte upper-cased and the remainder unchanged. *)
Theorem formatType_names (field : ast.Field) (r r' : RPCGen.t) (t : Type_.t) :
  formatType field r = Done t r' ->
  1 <= length (ast.Names field) /\
  length (Type_.Names t) = length (ast.Names field) /\
  length (Type_.LowerNames t) = length (ast.Names field) /\
  Type_.LowerNames t = ast.Names field /\
  forall i orig, Type_.LowerNames t !! i = Some orig ->
                 starts_ascii orig = true ->
                 Type_.Names t !! i = Some (capitalized orig).
Proof.
  intros H. apply formatType_Done in H as (Hne & Hall & -> & _ & _). simpl.
  split_and!.
  - destruct (ast.Names field); [done|simpl; lia].
  - by rewrite length_map.
  - done.
  - done.
  - intros i orig Hi Hascii. rewrite list_lookup_fmap, Hi. simpl.
    by rewrite publicName_ascii.
Qed.

Lemma formatType_names_witness :
  let field := sample.field (sample.at_ 4 6) ["a"; "b"] sample.int in
  let t := Type_.mk ["A"; "B"] ["a"; "b"] "int" in
  formatType field sample.gen0 = Done t sample.gen0
  /\ Type_.Names t !! 1 = Some (capitalized "b").
Proof.
  split; [reflexivity|].
  destruct (formatType_names
              (sample.field (sample.at_ 4 6) ["a"; "b"] sample.int)
              sample.gen0 sample.gen0
              (Type_.mk ["A"; "B"] ["a"; "b"] "int") eq_refl)
    as (_ & _ & _ & _ & H).
  apply H; reflexivity.
Defined.

(** C5, as stated, fails for an identifier that starts with a byte outside
    ASCII.  For the field [é int] the formatter takes the byte C3 alone,
    [strings.ToUpper] answers U+FFFD for it, and the public name is
    EF BF BD A9: neither the identifier with its first character
    upper-cased ([É]) nor the identifier itself. *)
Lemma formatType_names_counterexample :
  exists t,
    formatType (sample.field (sample.at_ 4 6) [sample.e_acute] sample.int) sample.gen0
    = Done t sample.gen0
    /\ Type_.LowerNames t = [sample.e_acute]
    /\ Type_.Names t = [strings.RuneError +:+ String (byte_of 169) ""]
    /\ Type_.Names t <> [sample.E_acute]
    /\ Type_.Names t <> [capitalized sample.e_acute]
    /\ Type_.Names t <> [sample.e_acute].
Proof.
  eexists. split; [vm_compute; reflexivity|]. simpl. split_and!; try done.
Qed.

(** ** The traversal of type expressions *)

Lemma types_supported e :
  if supported e then exists names, types e = inr names
  else exists kind, types e = inl (PanicUnknownExpr kind).
Proof.
  induction e as [name|x IH|x IH sel|key IHk value IHv|len elt IH|kind text]; simpl.
  - by eexists.
  - exact IH.
  - destruct (supported x).
    + destruct IH as [xs ->]. by eexists.
    + destruct IH as [kind ->]. by eexists.
  - destruct (supported key); simpl.
    + destruct IHk as [keys ->]. destruct (supported value).
      * destruct IHv as [values ->]. by eexists.
      * destruct IHv as [kind ->]. by eexists.
    + destruct IHk as [kind ->]. by eexists.
  - exact IH.
  - by eexists.
Qed.

(** ** Import resolution *)

Lemma cut_first sep q rest :
  has_byte sep q = false -> strings.cut sep (q +:+ String sep rest) = Some (q, rest).
Proof.
  induction q as [|c q IH]; simpl.
  - intros _. by rewrite Ascii.eqb_refl.
  - intros H. apply orb_false_iff in H as [Hc Hq]. rewrite Hc, IH by done. done.
Qed.

Lemma SplitN_qualified q name :
  has_byte dot q = false ->
  strings.SplitN (q +:+ "." +:+ name) dot 2 = [q; name].
Proof.
  intros H. change ("." +:+ name) with (String dot name).
  simpl. by rewrite cut_first.
Qed.

Lemma refers_types q name e :
  refers q name e ->
  forall typeNames, types e = inr typeNames -> (q +:+ "." +:+ name) ∈ typeNames.
Proof.
  induction 1 as [|x _ IH|key value _ IH|key value _ IH|len elt _ IH];
    intros typeNames Ht; simpl in Ht.
  - inversion Ht; subst. apply list_elem_of_singleton.
    unfold strings.Join. simpl. done.
  - by apply IH.
  - destruct (types key) as [e|keys]; [done|].
    destruct (types value) as [e|values]; [done|].
    inversion Ht; subst. apply elem_of_app. left. by apply IH.
  - destruct (types key) as [e|keys]; [done|].
    destruct (types value) as [e|values]; [done|].
    inversion Ht; subst. apply elem_of_app. right. by apply IH.
  - by apply IH.
Qed.

Lemma grows_registered key r r' : grows r r' -> registered key r -> registered key r'.
Proof. intros Hg. apply (grows_Imports _ _ Hg). Qed.

Lemma checkImport_registers q imp r u r' :
  checkImport q imp r = Done u r' ->
  resolved q imp r'.
Proof.
  unfold checkImport, bind, lift.
  destruct (importPath imp) as [e|path] eqn:Hpath; [done|].
  unfold ret at 1. intros Hrun. exists path. split; [done|].
  destruct (ast.Name imp) as [alias|].
  - destruct (String.eqb alias q) eqn:Halias.
    + apply String.eqb_eq in Halias as ->. split; [|done].
      intros _. eapply register_registers; eauto.
    + apply String.eqb_neq in Halias. split; [intros [= ?]; done|].
      intros _ Hbase. rewrite Hbase, String.eqb_refl in Hrun.
      eapply register_registers; eauto.
  - split; [done|]. intros _ Hbase. rewrite Hbase, String.eqb_refl in Hrun.
    eapply register_registers; eauto.
Qed.

Lemma resolveImports_registers q name imp r u r' :
  has_byte dot q = false ->
  imp ∈ RPCGen.CheckImports r ->
  resolveImports (q +:+ "." +:+ name) r = Done u r' ->
  resolved q imp r'.
Proof.
  intros Hq Hin. unfold resolveImports. rewrite SplitN_qualified by done.
  unfold bind, get. intros Hrun.
  eapply (for_each_reaches (fun _ => True) (resolved q imp) _ _ imp Hin);
    [| | |exact Hrun|done].
  - done.
  - intros r1 u1 r2 Hstep _. eapply checkImport_registers; eauto.
  - intros y r1 u1 r2 Hstep (path & Hp & Ha & Hb).
    apply checkImport_grows in Hstep.
    exists path. split_and!; [done|..]; eauto using grows_registered.
Qed.

(** C6. When the formatter accepts a field whose type expression holds
    the qualified reference [q.name], then for every import of the source
    file seen by the walk: if its explicit alias is [q], the key made of
    the alias, a space and the import path is registered in the import set;
    otherwise, if the last segment of its path is [q], the path itself is
    registered. *)
Theorem formatType_registers_imports
    (field : ast.Field) (r r' : RPCGen.t) (t : Type_.t)
    (q name : string) (imp : ast.ImportSpec) :
  formatType field r = Done t r' ->
  refers q name (ast.Type_ field) ->
  has_byte dot q = false ->
  imp ∈ RPCGen.CheckImports r ->
  exists path, importPath imp = inr path /\
    (ast.Name imp = Some q -> registered (q +:+ " " +:+ path) r') /\
    (ast.Name imp <> Some q -> filepath.Base path = q -> registered path r').
Proof.
  intros Hrun Href Hq Hin.
  apply formatType_Done in Hrun as (_ & _ & _ & (typeNames & Ht & Hloop) & _).
  pose proof (refers_types _ _ _ Href _ Ht) as Hmem.
  change (resolved q imp r').
  eapply (for_each_reaches (fun r1 => RPCGen.CheckImports r1 = RPCGen.CheckImports r)
            (resolved q imp) _ _ _ Hmem); [| | |exact Hloop|done].
  - intros y r1 u1 r2 Hstep <-. apply resolveImports_grows in Hstep.
    apply (grows_CheckImports _ _ Hstep).
  - intros r1 u1 r2 Hstep Hsame. rewrite <- Hsame in Hin.
    eapply resolveImports_registers; eauto.
  - intros y r1 u1 r2 Hstep (path & Hp & Ha & Hb).
    apply resolveImports_grows in Hstep.
    exists path. split_and!; [done|..]; eauto using grows_registered.
Qed.

Lemma formatType_registers_imports_witness :
  let time := {| ast.Name := None; ast.Path := dq +:+ "time" +:+ dq |} in
  let field := sample.field (sample.at_ 4 6) ["d"] (ast.StarExpr sample.duration) in
  let r := RPCGen.set_CheckImports sample.gen0 [time] in
  let r' := RPCGen.set_Imports r (<["time" := true]> (RPCGen.Imports r)) in
  formatType field r = Done (Type_.mk ["D"] ["d"] "*time.Duration") r'
  /\ exists path, importPath time = inr path /\
       (ast.Name time = Some "time" -> registered ("time" +:+ " " +:+ path) r') /\
       (ast.Name time <> Some "time" -> filepath.Base path = "time" -> registered path r').
Proof.
  split; [vm_compute; reflexivity|].
  apply (formatType_registers_imports
           (sample.field (sample.at_ 4 6) ["d"] (ast.StarExpr sample.duration))
           (RPCGen.set_CheckImports sample.gen0
              [{| ast.Name := None; ast.Path := dq +:+ "time" +:+ dq |}])
           _ (Type_.mk ["D"] ["d"] "*time.Duration") "time" "Duration").
  - vm_compute; reflexivity.
  - apply refers_star, refers_here.
  - reflexivity.
  - apply list_elem_of_singleton. reflexivity.
Defined.

(** ** The extractor, step by step *)

Lemma formatFields_Done fields : forall r ts r',
  formatFields fields r = Done ts r' -> ts = map formatted fields /\ grows r r'.
Proof.
  induction fields as [|v rest IH]; intros r ts r'; simpl.
  - unfold ret. intros [= <- <-]. split; [done|apply grows_refl].
  - unfold bind. destruct (formatType v r) as [t r1|e] eqn:Hv; [|done].
    destruct (formatFields rest r1) as [ts1 r2|e] eqn:Hrest; [|done].
    unfold ret. intros [= <- <-].
    apply IH in Hrest as [-> Hg2].
    apply formatType_Done in Hv as (_ & _ & -> & _ & Hg1).
    split; [done|]. eapply grows_trans; eauto.
Qed.

Lemma parameters_loop params : forall method r,
  fold_each params method addParameter r =
  match formatFields params r with
  | Done ts r' =>
      Done (Method.mk (Method.Name method) (Method.Parameters method ++ ts)
                      (Method.Results method)) r'
  | Stopped e => Stopped e
  end.
Proof.
  induction params as [|v rest IH]; intros method r; simpl.
  - unfold ret. rewrite app_nil_r. by destruct method.
  - unfold addParameter at 1. unfold bind. destruct (formatType v r) as [t r1|e]; [|done].
    unfold ret at 1. rewrite IH. simpl.
    destruct (formatFields rest r1) as [ts r2|e]; [|done].
    unfold ret. by rewrite <- app_assoc.
Qed.

Lemma results_loop results : forall hasError method r,
  fold_each results (hasError, method) addResult r =
  match formatFields results r with
  | Done ts r' =>
      Done (hasError || existsb isError ts,
            Method.mk (Method.Name method) (Method.Parameters method)
                      (Method.Results method ++ filter (fun t => isError t = false) ts)) r'
  | Stopped e => Stopped e
  end.
Proof.
  induction results as [|v rest IH]; intros hasError method r; simpl.
  - unfold ret. rewrite app_nil_r, orb_false_r. by destruct method.
  - unfold addResult at 1. unfold bind. destruct (formatType v r) as [t r1|e]; [|done].
    unfold isError at 1. destruct (String.eqb (Type_.Type_ t) "error") eqn:Ht.
    + unfold ret at 1. rewrite IH.
      destruct (formatFields rest r1) as [ts r2|e]; [|done].
      unfold ret. simpl. unfold isError at 1. rewrite Ht. simpl.
      rewrite orb_true_r.
      rewrite (filter_cons_False _ t); [done|]. unfold isError. by rewrite Ht.
    + unfold ret at 1. rewrite IH. simpl.
      destruct (formatFields rest r1) as [ts r2|e]; [|done].
      unfold ret. simpl. unfold isError at 1. rewrite Ht. simpl.
      rewrite (filter_cons_True _ t); [|unfold isError; by rewrite Ht].
      by rewrite <- app_assoc.
Qed.

(** One entry of the method list that is a function signature: format the
    parameters, format the results, then accept the method when a result
    of type [error] was seen and stop at the method otherwise. *)
Lemma visitMethod_func m params results name names r :
  ast.MType m = ast.FuncType params results ->
  ast.MNames m = name :: names ->
  visitMethod m r =
  match formatFields params r with
  | Stopped e => Stopped e
  | Done ps r1 =>
      match formatFields (resultList results) r1 with
      | Stopped e => Stopped e
      | Done rs r2 =>
          if existsb isError rs
          then Done tt (RPCGen.set_Methods r2
                 (RPCGen.Methods r2 ++
                  [Method.mk name ps (filter (fun t => isError t = false) rs)]))
          else Stopped (FatalNode (ast.MPos m) (no_error_msg name))
      end
  end.
Proof.
  intros Hty Hname. unfold visitMethod. rewrite Hty, Hname.
  unfold bind at 1. rewrite parameters_loop. simpl.
  destruct (formatFields params r) as [ps r1|e]; [|done].
  unfold bind at 1. fold (resultList results). rewrite results_loop. simpl.
  destruct (formatFields (resultList results) r1) as [rs r2|e]; [|done].
  destruct (existsb isError rs); simpl; [|done].
  unfold bind, ret, modify. done.
Qed.

Lemma visitMethod_not_func m e r :
  ast.MType m = ast.NotFunc e -> visitMethod m r = Done tt r.
Proof. intros H. unfold visitMethod. by rewrite H. Qed.

(** A successful step keeps everything but [Methods] and [Imports], and
    appends exactly the record read off the declaration. *)
Lemma visitMethod_Done m r u r' :
  visitMethod m r = Done u r' ->
  RPCGen.Methods r' = RPCGen.Methods r ++ translate m /\
  RPCGen.CheckImports r' = RPCGen.CheckImports r /\
  RPCGen.Type_ r' = RPCGen.Type_ r /\
  RPCGen.Service r' = RPCGen.Service r /\
  RPCGen.Package r' = RPCGen.Package r /\
  RPCGen.RPCType r' = RPCGen.RPCType r.
Proof.
  destruct (ast.MType m) as [params results|e] eqn:Hty.
  - destruct (ast.MNames m) as [|name names] eqn:Hname.
    { unfold visitMethod. by rewrite Hty, Hname. }
    rewrite (visitMethod_func _ _ _ _ _ _ Hty Hname).
    destruct (formatFields params r) as [ps r1|e] eqn:Hps; [|done].
    destruct (formatFields (resultList results) r1) as [rs r2|e] eqn:Hrs; [|done].
    destruct (existsb isError rs); [|done].
    intros [= <- <-]. apply formatFields_Done in Hps as [-> Hg1].
    apply formatFields_Done in Hrs as [-> Hg2].
    pose proof (grows_trans _ _ _ Hg1 Hg2) as [].
    unfold translate. rewrite Hty, Hname. simpl. simpl. split_and!; congruence.
  - rewrite (visitMethod_not_func _ _ _ Hty). intros [= <- <-].
    unfold translate. rewrite Hty. by rewrite app_nil_r.
Qed.

Lemma VisitMethodList_Done methods : forall r u r',
  VisitMethodList methods r = Done u r' ->
  RPCGen.Methods r' = RPCGen.Methods r ++ flat_map translate methods /\
  RPCGen.Type_ r' = RPCGen.Type_ r /\
  RPCGen.Service r' = RPCGen.Service r.
Proof.
  unfold VisitMethodList.
  induction methods as [|m rest IH]; intros r u r'; simpl.
  - unfold ret. intros [= <- <-]. by rewrite app_nil_r.
  - unfold bind. destruct (visitMethod m r) as [u1 r1|e] eqn:Hm; [|done].
    intros Hrest. apply IH in Hrest as (-> & -> & ->).
    apply visitMethod_Done in Hm as (-> & _ & -> & -> & _).
    by rewrite <- app_assoc.
Qed.

(** ** The walk *)

Lemma Node_induction (P : ast.Node -> Prop) :
  (forall imp, P (ast.ImportSpecNode imp)) ->
  (forall name nodes, Forall P nodes -> P (ast.TypeSpecNode name nodes)) ->
  (forall methods, P (ast.InterfaceTypeNode methods)) ->
  (forall nodes, Forall P nodes -> P (ast.OtherNode nodes)) ->
  forall node, P node.
Proof.
  intros Himp Htype Hiface Hother. fix IH 1.
  intros [imp|name nodes|methods|nodes].
  - apply Himp.
  - apply Htype. induction nodes as [|n nodes IHn]; constructor; [apply IH|apply IHn].
  - apply Hiface.
  - apply Hother. induction nodes as [|n nodes IHn]; constructor; [apply IH|apply IHn].
Qed.

Lemma Walk_unfold v node r :
  Walk v node r =
  match Visit v node r with
  | Stopped e => Stopped e
  | Done w r1 => WalkList w (children node) r1
  end.
Proof.
  destruct node as [imp|name nodes|methods|nodes]; simpl;
    destruct (Visit v _ r) as [w r1|e]; try done.
  - revert r1. induction nodes as [|n nodes IH]; intros r1; simpl; [done|].
    destruct (Walk w n r1); [apply IH|done].
  - revert r1. induction nodes as [|n nodes IH]; intros r1; simpl; [done|].
    destruct (Walk w n r1); [apply IH|done].
Qed.

Lemma WalkList_app v xs ys r :
  WalkList v (xs ++ ys) r =
  match WalkList v xs r with
  | Done _ r' => WalkList v ys r'
  | Stopped e => Stopped e
  end.
Proof.
  revert r. induction xs as [|x xs IH]; intros r; simpl; [done|].
  destruct (Walk v x r); [apply IH|done].
Qed.

Lemma WalkFile_unfold f r : WalkFile f r = WalkList VRPCGen (ast.Decls f) r.
Proof. unfold WalkFile. by rewrite Walk_unfold. Qed.

Lemma Walk_interface methods r :
  Walk VInterfaceGen (ast.InterfaceTypeNode methods) r =
  match VisitMethodList methods r with
  | Done _ r' => Done tt r'
  | Stopped e => Stopped e
  end.
Proof.
  rewrite Walk_unfold. simpl. unfold bind, ret.
  by destruct (VisitMethodList methods r).
Qed.

(** A stop at a node the walk comes to stops the whole walk. *)
Lemma reaches_stops v n r v' n' r' e :
  reaches v n r v' n' r' -> Walk v' n' r' = Stopped e -> Walk v n r = Stopped e.
Proof.
  induction 1 as [|v n r w r1 before child after r2 v' n' r' Hv Hc Hb _ IH]; [done|].
  intros Hstop. rewrite Walk_unfold, Hv, Hc, WalkList_app, Hb. simpl.
  by rewrite (IH Hstop).
Qed.

Lemma collects_refl r : collects r r.
Proof. by repeat split. Qed.

Lemma collects_trans r1 r2 r3 : collects r1 r2 -> collects r2 r3 -> collects r1 r3.
Proof. unfold collects. intros (?&?&?&?&?&?) (?&?&?&?&?&?). split_and!; congruence. Qed.

Lemma WalkList_undeclared nodes :
  Forall (fun n => forall r, declares (RPCGen.Type_ r) n = false ->
                   exists r', Walk VRPCGen n r = Done tt r' /\ collects r r') nodes ->
  forall r, existsb (declares (RPCGen.Type_ r)) nodes = false ->
  exists r', WalkList VRPCGen nodes r = Done tt r' /\ collects r r'.
Proof.
  induction 1 as [|n nodes Hn _ IH]; intros r Hnodes; simpl in *.
  - eexists. split; [done|apply collects_refl].
  - apply orb_false_iff in Hnodes as [Hn1 Hn2].
    destruct (Hn r Hn1) as (r1 & -> & Hc1).
    destruct (IH r1) as (r2 & -> & Hc2).
    { destruct Hc1 as (_ & -> & _). done. }
    eexists. split; [done|]. eapply collects_trans; eauto.
Qed.

(** Where no type declaration carries the requested name, the walk runs
    to its end and only collects import specs. *)
Lemma Walk_undeclared node : forall r,
  declares (RPCGen.Type_ r) node = false ->
  exists r', Walk VRPCGen node r = Done tt r' /\ collects r r'.
Proof.
  induction node as [imp|name nodes IH|methods|nodes IH] using Node_induction;
    intros r Hdecl; rewrite Walk_unfold; simpl in *.
  - unfold bind, modify, ret. simpl. eexists. split; [done|]. by repeat split.
  - apply orb_false_iff in Hdecl as [Hname Hnodes].
    unfold bind, get. rewrite Hname. unfold ret.
    by apply WalkList_undeclared.
  - unfold ret. eexists. split; [done|apply collects_refl].
  - unfold ret. by apply WalkList_undeclared.
Qed.

(** ** The command *)

Lemma main_stopped w flags f e :
  source flags <> "" -> rpcType flags <> "" ->
  ParseFile w (source flags) = inr f ->
  WalkFile f (newRPCGen flags f) = Stopped e ->
  main w flags = fatal e.
Proof.
  intros Hs Ht Hparse Hwalk. unfold main.
  apply String.eqb_neq in Hs, Ht. rewrite Hs, Ht. simpl.
  by rewrite Hparse, Hwalk.
Qed.

Lemma main_done w flags f u gen :
  source flags <> "" -> rpcType flags <> "" ->
  ParseFile w (source flags) = inr f ->
  WalkFile f (newRPCGen flags f) = Done u gen ->
  CreateError w (targetPath flags) = None ->
  WriteError w (targetPath flags) (render gen) = None ->
  exists rest code,
    main w flags =
    {| events := Create (targetPath flags)
                 :: WriteOut (targetPath flags) (render gen) :: rest;
       exit_code := code |}.
Proof.
  intros Hs Ht Hparse Hwalk Hcreate Hwrite. unfold main.
  apply String.eqb_neq in Hs, Ht. rewrite Hs, Ht. simpl.
  rewrite Hparse, Hwalk, Hcreate, Hwrite.
  destruct (GoFmtError w _ _); by eexists _, _.
Qed.

(** A run whose walk ran to its end and whose target was created but could
    not be written ends in the [fatalf] behind [t.Execute]. *)
Lemma main_write_fails w flags f u gen err :
  source flags <> "" -> rpcType flags <> "" ->
  ParseFile w (source flags) = inr f ->
  WalkFile f (newRPCGen flags f) = Done u gen ->
  CreateError w (targetPath flags) = None ->
  WriteError w (targetPath flags) (render gen) = Some err ->
  main w flags =
  {| events := [Create (targetPath flags);
                Stderr (Fatalf ("failed to execute template: " +:+ err))];
     exit_code := 1 |}.
Proof.
  intros Hs Ht Hparse Hwalk Hcreate Hwrite. unfold main.
  apply String.eqb_neq in Hs, Ht. rewrite Hs, Ht. simpl.
  by rewrite Hparse, Hwalk, Hcreate, Hwrite.
Qed.

(** A file is created only by a run whose walk ran to its end. *)
Lemma main_creates w flags path :
  Create path ∈ events (main w flags) ->
  exists f gen, ParseFile w (source flags) = inr f /\
                WalkFile f (newRPCGen flags f) = Done tt gen.
Proof.
  unfold main, fatal.
  destruct (String.eqb (source flags) "" || String.eqb (rpcType flags) "").
  { simpl. intros H. apply list_elem_of_singleton in H. done. }
  destruct (ParseFile w (source flags)) as [err|f] eqn:Hparse.
  { simpl. intros H. apply list_elem_of_singleton in H. done. }
  destruct (WalkFile f (newRPCGen flags f)) as [[] gen|e] eqn:Hwalk.
  - intros _. by exists f, gen.
  - simpl. intros H. apply list_elem_of_singleton in H. done.
Qed.

(** ** The method list, entry by entry *)

Lemma VisitMethodList_app xs ys r :
  VisitMethodList (xs ++ ys) r =
  match VisitMethodList xs r with
  | Done _ r' => VisitMethodList ys r'
  | Stopped e => Stopped e
  end.
Proof. apply for_each_app. Qed.

Lemma VisitMethodList_cons m rest r :
  VisitMethodList (m :: rest) r =
  match visitMethod m r with
  | Done _ r' => VisitMethodList rest r'
  | Stopped e => Stopped e
  end.
Proof. done. Qed.

(** ** Entries that are not function signatures *)

Lemma VisitMethodList_filter methods : forall r,
  VisitMethodList methods r
  = VisitMethodList (filter (fun m => isFunc m = true) methods) r.
Proof.
  induction methods as [|m rest IH]; intros r; [done|].
  destruct (ast.MType m) as [params results|e] eqn:Hty.
  - rewrite filter_cons_True by (unfold isFunc; by rewrite Hty).
    rewrite !VisitMethodList_cons. destruct (visitMethod m r); [apply IH|done].
  - rewrite filter_cons_False by (unfold isFunc; by rewrite Hty).
    rewrite VisitMethodList_cons, (visitMethod_not_func _ _ _ Hty). apply IH.
Qed.

(** C10. An entry of the method list whose type is not a function
    signature changes nothing: the extractor acts as if the entry were not
    there, so it adds no [Method] record, validates nothing and stops for
    nothing on its account; a list of such entries only, as an interface
    of embedded interfaces has, leaves the model as it was, with no method
    added. *)
Theorem VisitMethodList_skips_non_functions (methods : list ast.Method) (r : RPCGen.t) :
  VisitMethodList methods r
  = VisitMethodList (filter (fun m => isFunc m = true) methods) r
  /\ (Forall (fun m => isFunc m = false) methods ->
      VisitMethodList methods r = Done tt r
      /\ Walk VInterfaceGen (ast.InterfaceTypeNode methods) r = Done tt r).
Proof.
  split; [apply VisitMethodList_filter|].
  intros Hall.
  assert (VisitMethodList methods r = Done tt r) as Hrun.
  { rewrite VisitMethodList_filter.
    replace (filter (fun m => isFunc m = true) methods) with (@nil ast.Method); [done|].
    symmetry. induction Hall as [|m rest Hm _ IH]; [done|].
    rewrite filter_cons_False by congruence. exact IH. }
  split; [exact Hrun|]. by rewrite Walk_interface, Hrun.
Qed.

Lemma VisitMethodList_skips_non_functions_witness :
  VisitMethodList [sample.Reader; sample.Reader] sample.gen0 = Done tt sample.gen0
  /\ Walk VInterfaceGen (ast.InterfaceTypeNode [sample.Reader; sample.Reader]) sample.gen0
     = Done tt sample.gen0.
Proof.
  apply (VisitMethodList_skips_non_functions [sample.Reader; sample.Reader] sample.gen0).
  repeat constructor.
Defined.

(** ** The trailing error *)

Lemma existsb_isError_Exists fields :
  existsb isError (map formatted fields) = true
  <-> Exists (fun v => printer.Fprint (ast.Type_ v) = "error") fields.
Proof.
  induction fields as [|v rest IH]; simpl.
  - split; [done|]. intros H. by apply Exists_nil in H.
  - rewrite orb_true_iff, Exists_cons, IH. unfold isError, formatted. simpl.
    by rewrite String.eqb_eq.
Qed.

(** What the extractor asks of the results of a method whose fields all
    pass the formatter: that some result be of type [error], in whatever
    place and however many there are. *)
Lemma visitMethod_accepts_iff m params results name names r ps r1 rs r2 :
  ast.MType m = ast.FuncType params results ->
  ast.MNames m = name :: names ->
  formatFields params r = Done ps r1 ->
  formatFields (resultList results) r1 = Done rs r2 ->
  (exists r', visitMethod m r = Done tt r')
  <-> Exists (fun v => printer.Fprint (ast.Type_ v) = "error") (resultList results).
Proof.
  intros Hty Hname Hps Hrs.
  rewrite (visitMethod_func _ _ _ _ _ _ Hty Hname), Hps, Hrs.
  apply formatFields_Done in Hrs as [-> _].
  rewrite <- existsb_isError_Exists.
  destruct (existsb isError (map formatted (resultList results))).
  - split; [done|]. intros _. by eexists.
  - split; [|done]. by intros [r' ?].
Qed.

(** C1. The extractor takes [Foo() (err error, result int)], whose error
    result comes first: it drops the error result and keeps [result int]
    as the only entry of [Results].  It also takes [Twice() (first, second
    error)], which declares two error results.  The check looks for a
    result of type [error] anywhere in the list, not for a single one in
    the last place. *)
Theorem VisitMethodList_accepts_error_first :
  VisitMethodList [sample.Foo] sample.gen0
  = Done tt (RPCGen.set_Methods sample.gen0
               [Method.mk "Foo" [] [Type_.mk ["Result"] ["result"] "int"]])
  /\ VisitMethodList [sample.Twice] sample.gen0
     = Done tt (RPCGen.set_Methods sample.gen0 [Method.mk "Twice" [] []]).
Proof. split; vm_compute; reflexivity. Qed.

(** ** Methods without an error result *)

Lemma existsb_isError_formatted fields :
  Forall (fun v => printer.Fprint (ast.Type_ v) <> "error") fields ->
  existsb isError (map formatted fields) = false.
Proof.
  induction 1 as [|v rest Hv _ IH]; [done|]. simpl. rewrite IH, orb_false_r.
  unfold isError, formatted. simpl. by apply String.eqb_neq.
Qed.

Lemma visitMethod_without_error m params results r :
  ast.MType m = ast.FuncType params results ->
  Forall (fun v => printer.Fprint (ast.Type_ v) <> "error") (resultList results) ->
  exists e, visitMethod m r = Stopped e /\
    forall name names ps r1 rs r2,
      ast.MNames m = name :: names ->
      formatFields params r = Done ps r1 ->
      formatFields (resultList results) r1 = Done rs r2 ->
      e = FatalNode (ast.MPos m) (no_error_msg name).
Proof.
  intros Hty Hnone.
  destruct (ast.MNames m) as [|name names] eqn:Hname.
  { exists PanicBounds. split; [|done]. unfold visitMethod. by rewrite Hty, Hname. }
  rewrite (visitMethod_func _ _ _ _ _ _ Hty Hname).
  destruct (formatFields params r) as [ps r1|e] eqn:Hps.
  - destruct (formatFields (resultList results) r1) as [rs r2|e] eqn:Hrs.
    + pose proof (formatFields_Done _ _ _ _ Hrs) as [-> _].
      rewrite existsb_isError_formatted by done.
      eexists. split; [done|].
      intros name' names' ps' r1' rs' r2' [= <- <-] [= <- <-] _. done.
    + exists e. split; [done|]. intros name' names' ps' r1' rs' r2' _ [= <- <-].
      rewrite Hrs. done.
  - exists e. split; [done|]. intros; done.
Qed.

(** C3, as amended. A method without a result of type [error], with
    no results at all for one, stops the extraction at that method: no
    later method of the interface is looked at, and the run ends with
    the stop as its only event, so no file is created or written.  When
    all fields of the method pass the formatter, the stop is the fatal
    diagnostic at the position of the method that names the method. *)
Theorem extraction_stops_at_method_without_error
    (w : World) (flags : Flags) (f : ast.File) (r r1 : RPCGen.t)
    (pre post : list ast.Method) (m : ast.Method)
    (params : list ast.Field) (results : option (list ast.Field)) :
  source flags <> "" -> rpcType flags <> "" ->
  ParseFile w (source flags) = inr f ->
  reaches VRPCGen (ast.OtherNode (ast.Decls f)) (newRPCGen flags f)
          VInterfaceGen (ast.InterfaceTypeNode (pre ++ m :: post)) r ->
  VisitMethodList pre r = Done tt r1 ->
  ast.MType m = ast.FuncType params results ->
  Forall (fun v => printer.Fprint (ast.Type_ v) <> "error") (resultList results) ->
  exists e,
    visitMethod m r1 = Stopped e
    /\ (forall later, VisitMethodList (pre ++ m :: later) r = Stopped e)
    /\ main w flags = {| events := [Stderr e]; exit_code := exit_of e |}
    /\ (forall name names ps r2 rs r3,
          ast.MNames m = name :: names ->
          formatFields params r1 = Done ps r2 ->
          formatFields (resultList results) r2 = Done rs r3 ->
          e = FatalNode (ast.MPos m) (no_error_msg name)).
Proof.
  intros Hs Ht Hparse Hreach Hpre Hty Hnone.
  destruct (visitMethod_without_error m params results r1 Hty Hnone) as (e & Hstop & Hdiag).
  exists e.
  assert (forall later, VisitMethodList (pre ++ m :: later) r = Stopped e) as Hlist.
  { intros later. by rewrite VisitMethodList_app, Hpre, VisitMethodList_cons, Hstop. }
  split_and!; [exact Hstop|exact Hlist| |exact Hdiag].
  apply (main_stopped w flags f e Hs Ht Hparse).
  unfold WalkFile. eapply reaches_stops; [exact Hreach|].
  by rewrite Walk_interface, Hlist.
Qed.

Lemma extraction_stops_at_method_without_error_witness :
  let f := sample.file [sample.Add; sample.Ping; sample.Add] in
  exists e,
    visitMethod sample.Ping
      (RPCGen.set_Methods sample.gen0 (flat_map translate [sample.Add])) = Stopped e
    /\ (forall later, VisitMethodList ([sample.Add] ++ sample.Ping :: later) sample.gen0
                      = Stopped e)
    /\ main (sample.world f) sample.flags = {| events := [Stderr e]; exit_code := exit_of e |}
    /\ (forall name names ps r2 rs r3,
          ast.MNames sample.Ping = name :: names ->
          formatFields [sample.field (sample.at_ 5 7) ["a"] sample.int]
            (RPCGen.set_Methods sample.gen0 (flat_map translate [sample.Add]))
          = Done ps r2 ->
          formatFields (resultList None) r2 = Done rs r3 ->
          e = FatalNode (ast.MPos sample.Ping) (no_error_msg name)).
Proof.
  apply (extraction_stops_at_method_without_error
           (sample.world (sample.file [sample.Add; sample.Ping; sample.Add]))
           sample.flags
           (sample.file [sample.Add; sample.Ping; sample.Add])
           sample.gen0
           (RPCGen.set_Methods sample.gen0 (flat_map translate [sample.Add]))
           [sample.Add] [sample.Add] sample.Ping
           [sample.field (sample.at_ 5 7) ["a"] sample.int] None).
  - discriminate.
  - discriminate.
  - reflexivity.
  - eapply (reaches_below _ _ _ _ _ [] _ []); [reflexivity|reflexivity|reflexivity|].
    eapply (reaches_below _ _ _ _ _ [] _ []); [reflexivity|reflexivity|reflexivity|].
    eapply (reaches_below _ _ _ _ _ [ast.OtherNode []] _ []);
      [reflexivity|reflexivity|reflexivity|].
    apply reaches_here.
  - vm_compute; reflexivity.
  - reflexivity.
  - constructor.
Defined.

(** C3, as stated, fails for a method whose fields do not pass the
    formatter.  [Watch(a int) (c chan int)] has no result of type [error],
    and the extraction ends in the panic of [types], which names neither
    the method nor a position; [Size(a int) int] has none either, and the
    diagnostic is the one for the unnamed result, at the result's position
    and without the method's name. *)
Lemma extraction_stops_at_method_without_error_counterexample :
  Forall (fun v => printer.Fprint (ast.Type_ v) <> "error")
         [sample.field (sample.at_ 5 16) ["c"] (ast.OtherExpr "*ast.ChanType" "chan int")]
  /\ VisitMethodList [sample.Watch] sample.gen0 = Stopped (PanicUnknownExpr "*ast.ChanType")
  /\ Forall (fun v => printer.Fprint (ast.Type_ v) <> "error")
            [sample.field (sample.at_ 5 14) [] sample.int]
  /\ VisitMethodList [sample.Size] sample.gen0
     = Stopped (FatalNode (sample.at_ 5 14) unnamed_msg)
  /\ FatalNode (sample.at_ 5 14) unnamed_msg
     <> FatalNode (ast.MPos sample.Size) (no_error_msg "Size").
Proof.
  split_and!.
  - repeat constructor. discriminate.
  - vm_compute; reflexivity.
  - repeat constructor. discriminate.
  - vm_compute; reflexivity.
  - discriminate.
Qed.

(** ** A type name that no declaration carries *)

Lemma append_empty_r s : s +:+ "" = s.
Proof.
  induction s as [|c s IH]; [done|].
  change (String c (s +:+ "") = String c s). by rewrite IH.
Qed.

Lemma render_no_methods gen :
  RPCGen.Methods gen = [] ->
  render gen = header gen +:+ servicePreamble gen +:+ clientPreamble gen.
Proof.
  intros H. unfold render. rewrite H.
  change (String.concat "" (map _ [])) with "".
  change ("" +:+ clientPreamble gen +:+ "") with (clientPreamble gen +:+ "").
  by rewrite append_empty_r.
Qed.

(** C2, as amended. When no type declaration of the parsed file carries
    the requested name, the walk raises no error and adds no method: the
    model handed to the renderer has an empty method list, and, the target
    being creatable and the rendered text writable to it, the run creates
    the output file and writes the rendered text, which holds the preambles
    and no method group. *)
Theorem main_with_undeclared_type (w : World) (flags : Flags) (f : ast.File) :
  source flags <> "" -> rpcType flags <> "" ->
  ParseFile w (source flags) = inr f ->
  existsb (declares (rpcType flags)) (ast.Decls f) = false ->
  CreateError w (targetPath flags) = None ->
  (forall gen, WalkFile f (newRPCGen flags f) = Done tt gen ->
               WriteError w (targetPath flags) (render gen) = None) ->
  exists gen rest code,
    WalkFile f (newRPCGen flags f) = Done tt gen
    /\ RPCGen.Methods gen = []
    /\ main w flags =
       {| events := Create (targetPath flags)
                    :: WriteOut (targetPath flags) (render gen) :: rest;
          exit_code := code |}
    /\ render gen = header gen +:+ servicePreamble gen +:+ clientPreamble gen.
Proof.
  intros Hs Ht Hparse Hdecl Hcreate Hwrite.
  destruct (Walk_undeclared (ast.OtherNode (ast.Decls f)) (newRPCGen flags f))
    as (gen & Hwalk & Hc); [exact Hdecl|].
  destruct Hc as (_ & _ & _ & HM & _). simpl in HM.
  destruct (main_done w flags f tt gen Hs Ht Hparse Hwalk Hcreate (Hwrite gen Hwalk))
    as (rest & code & Hmain).
  exists gen, rest, code. split_and!; [exact Hwalk|exact HM|exact Hmain|].
  by apply render_no_methods.
Qed.

Lemma main_with_undeclared_type_witness :
  let f := sample.file [sample.Add] in
  let flags := sample.flagsFor "Missing" in
  exists gen rest code,
    WalkFile f (newRPCGen flags f) = Done tt gen
    /\ RPCGen.Methods gen = []
    /\ main (sample.world f) flags =
       {| events := Create (targetPath flags)
                    :: WriteOut (targetPath flags) (render gen) :: rest;
          exit_code := code |}
    /\ render gen = header gen +:+ servicePreamble gen +:+ clientPreamble gen.
Proof.
  apply (main_with_undeclared_type
           (sample.world (sample.file [sample.Add])) (sample.flagsFor "Missing")
           (sample.file [sample.Add])).
  - discriminate.
  - discriminate.
  - reflexivity.
  - reflexivity.
  - reflexivity.
  - intros gen _. reflexivity.
Defined.

(** C2, as stated, fails: asked for the type [Missing] of a file that
    declares only [Arith], the run ends with exit code 0 after creating
    [arithrpc.go] and writing a text rendered from a model without
    methods. *)
Lemma main_with_undeclared_type_counterexample :
  let f := sample.file [sample.Add] in
  let flags := sample.flagsFor "Missing" in
  existsb (declares "Missing") (ast.Decls f) = false
  /\ exists gen,
       WalkFile f (newRPCGen flags f) = Done tt gen
       /\ RPCGen.Methods gen = []
       /\ main (sample.world f) flags =
          {| events := [Create "arithrpc.go";
                        WriteOut "arithrpc.go" (render gen);
                        Stdout ("go-rpcgen: wrote RPC stubs for Missing to arithrpc.go" +:+ nl);
                        GoFmt "arithrpc.go"];
             exit_code := 0 |}.
Proof.
  split; [reflexivity|].
  eexists. split; [vm_compute; reflexivity|]. split; [reflexivity|].
  vm_compute. reflexivity.
Qed.

(** ** The import set *)



Lemma rangeKeys_Sorted (imports : gmap string bool) : Sorted String.le (rangeKeys imports).
Proof. unfold rangeKeys. apply (Sorted_merge_sort String.le). Qed.


Lemma length_append a s : String.length (a +:+ s) = String.length a + String.length s.
Proof.
  induction a as [|c a IH]; [done|].
  change (S (String.length (a +:+ s)) = S (String.length a + String.length s)).
  by rewrite IH.
Qed.

Lemma append_assoc a b c : (a +:+ b) +:+ c = a +:+ b +:+ c.
Proof.
  induction a as [|x a IH]; [done|].
  change (String x ((a +:+ b) +:+ c) = String x (a +:+ b +:+ c)). by rewrite IH.
Qed.




Lemma register_again key r : registered key r -> register key r = Done tt r.
Proof.
  intros H. rewrite register_spec. unfold RPCGen.set_Imports.
  rewrite insert_id by exact H. by destruct r.
Qed.

Lemma flagImports_fold (listed : list string) : forall (imports : gmap string bool) key,
  foldl (fun imports imp => <[imp := true]> imports) imports listed !! key
  = if decide (key ∈ listed) then Some true else imports !! key.
Proof.
  induction listed as [|imp rest IH]; intros imports key.
  - destruct (decide (key ∈ [])) as [H|H]; [by apply elem_of_nil in H|done].
  - change (foldl _ imports (imp :: rest))
      with (foldl (fun imports imp => <[imp := true]> imports) (<[imp := true]> imports) rest).
    rewrite IH.
    destruct (decide (key ∈ rest)) as [Hin|Hnotin];
      destruct (decide (key ∈ imp :: rest)) as [Hin'|Hnotin']; try done.
    + exfalso. apply Hnotin'. apply elem_of_cons. by right.
    + apply elem_of_cons in Hin' as [->|?]; [|done]. apply lookup_insert_eq.
    + apply lookup_insert_ne. intros ->. apply Hnotin'. apply elem_of_cons. by left.
Qed.








Lemma main_writes w flags path text :
  WriteOut path text ∈ events (main w flags) ->
  exists f gen, ParseFile w (source flags) = inr f /\
                WalkFile f (newRPCGen flags f) = Done tt gen /\
                text = render gen.
Proof.
  unfold main, fatal.
  destruct (String.eqb (source flags) "" || String.eqb (rpcType flags) "").
  { simpl. intros H. apply list_elem_of_singleton in H. done. }
  destruct (ParseFile w (source flags)) as [err|f] eqn:Hparse.
  { simpl. intros H. apply list_elem_of_singleton in H. done. }
  destruct (WalkFile f (newRPCGen flags f)) as [[] gen|e] eqn:Hwalk.
  - destruct (CreateError w (targetPath flags)).
    { simpl. intros H. apply list_elem_of_singleton in H. done. }
    intros H. exists f, gen. split_and!; [done..|].
    destruct (WriteError w _ _); [|destruct (GoFmtError w _ _)]; simpl in H;
      repeat (apply elem_of_cons in H as [H|H]; [by inversion H|]);
      try (apply elem_of_app in H as [H|H]);
      repeat (apply elem_of_cons in H as [H|H]; [by inversion H|]);
      by apply elem_of_nil in H.
  - simpl. intros H. apply list_elem_of_singleton in H. done.
Qed.

(** ** A stop of the formatter is the stop of the run *)

Lemma formatFields_stops before field after r ts r1 e :
  formatFields before r = Done ts r1 ->
  formatType field r1 = Stopped e ->
  formatFields (before ++ field :: after) r = Stopped e.
Proof.
  revert r ts. induction before as [|v rest IH]; intros r ts; simpl.
  - unfold ret. intros [= <- <-] Hstop. unfold bind. by rewrite Hstop.
  - unfold bind. destruct (formatType v r) as [t r2|e2]; [|done].
    destruct (formatFields rest r2) as [ts2 r3|e2] eqn:Hrest; [|done].
    unfold ret. intros [= <- <-] Hstop. by rewrite (IH _ _ Hrest Hstop).
Qed.

Lemma formats_stops f flags field r e :
  formats f flags field r ->
  formatType field r = Stopped e ->
  WalkFile f (newRPCGen flags f) = Stopped e.
Proof.
  intros Hf Hstop.
  assert (exists r0 pre m post r1,
            reaches VRPCGen (ast.OtherNode (ast.Decls f)) (newRPCGen flags f)
                    VInterfaceGen (ast.InterfaceTypeNode (pre ++ m :: post)) r0
            /\ VisitMethodList pre r0 = Done tt r1
            /\ visitMethod m r1 = Stopped e) as (r0 & pre & m & post & r1 & Hreach & Hpre & Hm).
  { destruct Hf as [r0 pre m post r1 params results name names before after ts
                      Hreach Hpre Hty Hname -> Hbefore
                   |r0 pre m post r1 params results name names ps r2 before after ts
                      Hreach Hpre Hty Hname Hps Hres Hbefore];
      exists r0, pre, m, post, r1; split_and!; try done;
      rewrite (visitMethod_func _ _ _ _ _ _ Hty Hname).
    - by rewrite (formatFields_stops _ _ _ _ _ _ _ Hbefore Hstop).
    - rewrite Hps, Hres. by rewrite (formatFields_stops _ _ _ _ _ _ _ Hbefore Hstop). }
  unfold WalkFile. eapply reaches_stops; [exact Hreach|].
  by rewrite Walk_interface, VisitMethodList_app, Hpre, VisitMethodList_cons, Hm.
Qed.

(** ** Unnamed fields *)

(** C4. A parameter or result field that binds no identifier makes the
    formatter stop with the fatal diagnostic "RPC interface parameters and
    results must all be named" at the position of that very field, whatever
    the field's type and whatever the model holds; no [Type] record comes
    back, and a run in which the formatter is called on the field ends
    with that diagnostic as its only event and exit code 1. *)
Theorem formatType_unnamed_field_is_fatal (pos : Position) (type : ast.Expr) (r : RPCGen.t) :
  let field := {| ast.Pos := pos; ast.Names := []; ast.Type_ := type |} in
  formatType field r = Stopped (FatalNode pos unnamed_msg)
  /\ (forall t r', formatType field r <> Done t r')
  /\ (forall w flags f,
        source flags <> "" -> rpcType flags <> "" ->
        ParseFile w (source flags) = inr f ->
        formats f flags field r ->
        main w flags = {| events := [Stderr (FatalNode pos unnamed_msg)]; exit_code := 1 |}).
Proof.
  intros field.
  assert (formatType field r = Stopped (FatalNode pos unnamed_msg)) as Hstop.
  { by rewrite formatType_unfold. }
  split_and!; [exact Hstop|by rewrite Hstop|].
  intros w flags f Hs Ht Hparse Hf.
  rewrite (main_stopped w flags f (FatalNode pos unnamed_msg) Hs Ht Hparse); [done|].
  eapply formats_stops; eauto.
Qed.

Lemma formatType_unnamed_field_is_fatal_witness :
  let field := sample.field (sample.at_ 5 14) [] sample.int in
  let f := sample.file [sample.Add; sample.Size] in
  formatType field
    (RPCGen.set_Methods sample.gen0 (flat_map translate [sample.Add]))
  = Stopped (FatalNode (sample.at_ 5 14) unnamed_msg)
  /\ main (sample.world f) sample.flags
     = {| events := [Stderr (FatalNode (sample.at_ 5 14) unnamed_msg)]; exit_code := 1 |}.
Proof.
  destruct (formatType_unnamed_field_is_fatal (sample.at_ 5 14) sample.int
              (RPCGen.set_Methods sample.gen0 (flat_map translate [sample.Add])))
    as (Hstop & _ & Hmain).
  split; [exact Hstop|].
  apply (Hmain (sample.world (sample.file [sample.Add; sample.Size])) sample.flags
               (sample.file [sample.Add; sample.Size])).
  - discriminate.
  - discriminate.
  - reflexivity.
  - eapply (formats_result _ _ _ _ sample.gen0 [sample.Add] sample.Size []
              (RPCGen.set_Methods sample.gen0 (flat_map translate [sample.Add]))
              [sample.field (sample.at_ 5 7) ["a"] sample.int]
              (Some [sample.field (sample.at_ 5 14) [] sample.int])
              "Size" [] _ _ [] [] []).
    + eapply (reaches_below _ _ _ _ _ [] _ []); [reflexivity|reflexivity|reflexivity|].
      eapply (reaches_below _ _ _ _ _ [] _ []); [reflexivity|reflexivity|reflexivity|].
      eapply (reaches_below _ _ _ _ _ [ast.OtherNode []] _ []);
        [reflexivity|reflexivity|reflexivity|].
      apply reaches_here.
    + vm_compute; reflexivity.
    + reflexivity.
    + reflexivity.
    + vm_compute; reflexivity.
    + reflexivity.
    + reflexivity.
Defined.

(** ** Unsupported type expressions *)

(** C7. [types] returns a list of names for every expression built from
    identifiers, pointers, selectors, maps and arrays or slices; for an
    expression with a node of any other shape, at the top or anywhere the
    traversal goes, it panics with that node's kind, and so does the
    formatter on a named field of such a type, which ends the run with the
    panic as its only event. *)
Theorem types_total_on_supported_shapes (e : ast.Expr) :
  (if supported e then exists names, types e = inr names
   else exists kind,
     types e = inl (PanicUnknownExpr kind)
     /\ (forall pos name names r,
           formatType {| ast.Pos := pos; ast.Names := name :: names; ast.Type_ := e |} r
           = Stopped (PanicUnknownExpr kind))
     /\ (forall pos name names r w flags f,
           source flags <> "" -> rpcType flags <> "" ->
           ParseFile w (source flags) = inr f ->
           formats f flags {| ast.Pos := pos; ast.Names := name :: names; ast.Type_ := e |} r ->
           main w flags = {| events := [Stderr (PanicUnknownExpr kind)]; exit_code := 2 |}))
  /\ forall kind text, types (ast.OtherExpr kind text) = inl (PanicUnknownExpr kind).
Proof.
  split; [|done].
  pose proof (types_supported e) as H. destruct (supported e); [exact H|].
  destruct H as [kind Hk]. exists kind.
  assert (forall pos name names r,
            formatType {| ast.Pos := pos; ast.Names := name :: names; ast.Type_ := e |} r
            = Stopped (PanicUnknownExpr kind)) as Hstop.
  { intros pos name names r. rewrite formatType_unfold. simpl. by rewrite Hk. }
  split_and!; [exact Hk|exact Hstop|].
  intros pos name names r w flags f Hs Ht Hparse Hf.
  rewrite (main_stopped w flags f (PanicUnknownExpr kind) Hs Ht Hparse); [done|].
  eapply formats_stops; eauto.
Qed.

Lemma types_total_on_supported_shapes_witness :
  let chan := ast.OtherExpr "*ast.ChanType" "chan int" in
  let f := sample.file [sample.Watch] in
  (exists names,
     types (ast.MapType (ast.Ident "string") (ast.ArrayType None (ast.StarExpr sample.duration)))
     = inr names)
  /\ types (ast.MapType (ast.Ident "string") chan) = inl (PanicUnknownExpr "*ast.ChanType")
  /\ main (sample.world f) sample.flags
     = {| events := [Stderr (PanicUnknownExpr "*ast.ChanType")]; exit_code := 2 |}.
Proof.
  split.
  { exact (proj1 (types_total_on_supported_shapes
             (ast.MapType (ast.Ident "string")
                          (ast.ArrayType None (ast.StarExpr sample.duration))))). }
  split; [reflexivity|].
  destruct (proj1 (types_total_on_supported_shapes (ast.OtherExpr "*ast.ChanType" "chan int")))
    as (kind & Hk & _ & Hmain).
  injection Hk as <-.
  apply (Hmain (sample.at_ 5 16) "c" [] sample.gen0
               (sample.world (sample.file [sample.Watch])) sample.flags
               (sample.file [sample.Watch])).
  - discriminate.
  - discriminate.
  - reflexivity.
  - eapply (formats_result _ _ _ _ sample.gen0 [] sample.Watch [] sample.gen0
              [sample.field (sample.at_ 5 8) ["a"] sample.int]
              (Some [sample.field (sample.at_ 5 16) ["c"]
                       (ast.OtherExpr "*ast.ChanType" "chan int")])
              "Watch" [] _ _ [] [] []).
    + eapply (reaches_below _ _ _ _ _ [] _ []); [reflexivity|reflexivity|reflexivity|].
      eapply (reaches_below _ _ _ _ _ [] _ []); [reflexivity|reflexivity|reflexivity|].
      eapply (reaches_below _ _ _ _ _ [ast.OtherNode []] _ []);
        [reflexivity|reflexivity|reflexivity|].
      apply reaches_here.
    + reflexivity.
    + reflexivity.
    + reflexivity.
    + vm_compute; reflexivity.
    + reflexivity.
    + reflexivity.
Defined.

(** ** The walk collects the imports first *)

Lemma WalkList_import_specs imps : forall rest r,
  WalkList VRPCGen (map ast.ImportSpecNode imps ++ rest) r
  = WalkList VRPCGen rest
      (RPCGen.set_CheckImports r (RPCGen.CheckImports r ++ imps)).
Proof.
  induction imps as [|imp imps IH]; intros rest r; simpl.
  - rewrite app_nil_r. by destruct r.
  - rewrite IH. simpl. by rewrite <- app_assoc.
Qed.

(** ** The library functions on small inputs *)

Example Split_keeps_empty_pieces :
  strings.Split "net/rpc,,time" comma = ["net/rpc"; ""; "time"]
  /\ strings.Split "" comma = [""].
Proof. split; reflexivity. Qed.

Example SplitN_cuts_once :
  strings.SplitN "a.b.c" dot 2 = ["a"; "b.c"] /\ strings.SplitN "int" dot 2 = ["int"].
Proof. split; reflexivity. Qed.

Example Base_is_last_segment :
  filepath.Base "github.com/alecthomas/template" = "template"
  /\ filepath.Base "time" = "time"
  /\ filepath.Base "net/rpc/" = "rpc"
  /\ filepath.Base "//" = "/"
  /\ filepath.Base "" = ".".
Proof. repeat split; reflexivity. Qed.

Example ToUpper1_on_ascii :
  strings.ToUpper1 "a" = "A" /\ strings.ToUpper1 "z" = "Z"
  /\ strings.ToUpper1 "Q" = "Q" /\ strings.ToUpper1 "_" = "_".
Proof. repeat split; reflexivity. Qed.

Example defaultTarget_replaces_extension :
  defaultTarget "pkg/arith.go" = "pkg/arithrpc.go" /\ defaultTarget "arith" = "rpc.go".
Proof. split; reflexivity. Qed.

Example Fprint_reprints :
  printer.Fprint
    (ast.MapType (ast.Ident "string")
       (ast.ArrayType None (ast.StarExpr sample.duration)))
  = "map[string][]*time.Duration".
Proof. reflexivity. Qed.

(** ** Two whole runs *)

(** The interface of the README: one method, [Add(a, b int) (result int,
    err error)]. *)
Example main_on_Arith :
  exists text,
    main (sample.world (sample.file [sample.Add])) sample.flags
    = {| events := [Create "arithrpc.go"; WriteOut "arithrpc.go" text;
                    Stdout ("go-rpcgen: wrote RPC stubs for Arith to arithrpc.go" +:+ nl);
                    GoFmt "arithrpc.go"];
         exit_code := 0 |}
    /\ text = render (RPCGen.set_Methods sample.gen0
                        [Method.mk "Add" [Type_.mk ["A"; "B"] ["a"; "b"] "int"]
                                         [Type_.mk ["Result"] ["result"] "int"]])
    /\ serviceBlock "Arith"
         (Method.mk "Add" [Type_.mk ["A"; "B"] ["a"; "b"] "int"]
                          [Type_.mk ["Result"] ["result"] "int"])
       = nl +:+ "type ArithAddRequest struct {" +:+ nl +:+
         tab +:+ "A, B int" +:+ nl +:+ "}" +:+ nl +:+ nl +:+
         "type ArithAddResponse struct {" +:+ nl +:+
         tab +:+ "Result int" +:+ nl +:+ "}" +:+ nl +:+ nl +:+
         "func (s *ArithService) Add(request *ArithAddRequest, "
           +:+ "response *ArithAddResponse) (err error) {" +:+ nl +:+
         tab +:+ "response.Result, err = s.impl.Add(request.A, request.B)" +:+ nl +:+
         tab +:+ "return" +:+ nl +:+ "}" +:+ nl.
Proof.
  eexists. split; [vm_compute; reflexivity|]. split; vm_compute; reflexivity.
Qed.

(** Two methods that mention [time.Duration] three times and [time.Time]
    once: the import block has the configured [net/rpc] and one [time]. *)
Example main_resolves_time_once :
  exists gen text,
    WalkFile sample_time.file (newRPCGen sample.flags sample_time.file) = Done tt gen
    /\ rangeKeys (RPCGen.Imports gen) = ["net/rpc"; "time"]
    /\ importBlock gen
       = "import (" +:+ nl +:+
         "  " +:+ dq +:+ "net/rpc" +:+ dq +:+ nl +:+
         "  " +:+ dq +:+ "time" +:+ dq +:+ nl +:+
         ")" +:+ nl
    /\ map Method.Name (RPCGen.Methods gen) = ["Sleep"; "Until"]
    /\ main (sample.world sample_time.file) sample.flags
       = {| events := [Create "arithrpc.go"; WriteOut "arithrpc.go" text;
                       Stdout ("go-rpcgen: wrote RPC stubs for Arith to arithrpc.go" +:+ nl);
                       GoFmt "arithrpc.go"];
            exit_code := 0 |}.
Proof.
  eexists _, _. split; [vm_compute; reflexivity|].
  split_and!; vm_compute; reflexivity.
Qed.

(** * Further properties *)

(** ** The walk as a whole *)

Lemma VisitMethodList_config methods : forall r u r',
  VisitMethodList methods r = Done u r' ->
  RPCGen.Service r' = RPCGen.Service r /\ RPCGen.Type_ r' = RPCGen.Type_ r /\
  RPCGen.Package r' = RPCGen.Package r /\ RPCGen.RPCType r' = RPCGen.RPCType r /\
  RPCGen.CheckImports r' = RPCGen.CheckImports r.
Proof.
  unfold VisitMethodList.
  induction methods as [|m rest IH]; intros r u r'; simpl.
  - unfold ret. by intros [= <- <-].
  - unfold bind. destruct (visitMethod m r) as [u1 r1|e] eqn:Hm; [|done].
    intros Hrest. apply IH in Hrest as (-> & -> & -> & -> & ->).
    apply visitMethod_Done in Hm as (_ & -> & -> & -> & -> & ->). done.
Qed.

Lemma Visit_next v node r w r1 :
  Visit v node r = Done w r1 ->
  w = next (RPCGen.Type_ r) v node /\
  RPCGen.Service r1 = RPCGen.Service r /\ RPCGen.Type_ r1 = RPCGen.Type_ r /\
  RPCGen.Package r1 = RPCGen.Package r /\ RPCGen.RPCType r1 = RPCGen.RPCType r /\
  RPCGen.CheckImports r1
  = RPCGen.CheckImports r
    ++ match v, node with VRPCGen, ast.ImportSpecNode imp => [imp] | _, _ => [] end /\
  RPCGen.Methods r1
  = RPCGen.Methods r
    ++ flat_map translate
         match v, node with VInterfaceGen, ast.InterfaceTypeNode ms => ms | _, _ => [] end.
Proof.
  destruct node as [imp|name nodes|methods|nodes]; destruct v; simpl;
    unfold bind, modify, get, ret; simpl;
    try (intros [= <- <-]; simpl; rewrite ?app_nil_r; done).
  - destruct (String.eqb name (RPCGen.Type_ r)); intros [= <- <-];
      simpl; rewrite ?app_nil_r; done.
  - destruct (VisitMethodList methods r) as [u r2|e] eqn:Hrun; [|done].
    intros [= <- <-].
    pose proof (VisitMethodList_config _ _ _ _ Hrun) as (-> & -> & -> & -> & ->).
    apply VisitMethodList_Done in Hrun as (-> & _ & _).
    rewrite app_nil_r. done.
Qed.

Lemma WalkList_walked T v nodes :
  Forall (fun n => forall v r u r', RPCGen.Type_ r = T ->
                   Walk v n r = Done u r' -> walked T v n r r') nodes ->
  forall r u r', RPCGen.Type_ r = T -> WalkList v nodes r = Done u r' ->
    RPCGen.Service r' = RPCGen.Service r /\ RPCGen.Type_ r' = RPCGen.Type_ r /\
    RPCGen.Package r' = RPCGen.Package r /\ RPCGen.RPCType r' = RPCGen.RPCType r /\
    RPCGen.CheckImports r' = RPCGen.CheckImports r ++ flat_map (importsSeen T v) nodes /\
    RPCGen.Methods r'
    = RPCGen.Methods r ++ flat_map translate (flat_map (methodsSeen T v) nodes).
Proof.
  induction 1 as [|n rest Hn _ IH]; intros r u r' HT; simpl.
  - intros [= <- <-]. by rewrite !app_nil_r.
  - destruct (Walk v n r) as [u1 r1|e] eqn:Hw; [|done].
    intros Hrest. destruct (Hn v r u1 r1 HT Hw) as [HS HTy HP HR HC HM].
    assert (RPCGen.Type_ r1 = T) as HT1 by congruence.
    destruct (IH r1 u r' HT1 Hrest) as (-> & -> & -> & -> & -> & ->).
    rewrite HS, HTy, HP, HR, HC, HM, flat_map_app, <- !app_assoc. done.
Qed.

Lemma Walk_walked node : forall v r u r',
  Walk v node r = Done u r' -> walked (RPCGen.Type_ r) v node r r'.
Proof.
  assert (forall T v r u r', RPCGen.Type_ r = T ->
            Walk v node r = Done u r' -> walked T v node r r') as H;
    [|intros v r u r' Hw; by eapply H].
  intros T. induction node as [imp|name nodes IH|methods|nodes IH] using Node_induction;
    intros v r u r' HT; rewrite Walk_unfold;
    destruct (Visit v _ r) as [w r1|e] eqn:Hv; try done;
    apply Visit_next in Hv as (-> & HS & HTy & HP & HR & HC & HM); rewrite HT in *; simpl.
  - intros [= <- <-]. destruct v; split; simpl in *; rewrite ?app_nil_r in *; congruence.
  - intros Hrest.
    assert (RPCGen.Type_ r1 = T) as HT1 by congruence.
    destruct (WalkList_walked T _ nodes IH r1 u r' HT1 Hrest)
      as (HS' & HTy' & HP' & HR' & HC' & HM').
    split; simpl; try congruence.
    + rewrite HC', HC. destruct v; simpl; by rewrite app_nil_r.
    + rewrite HM', HM. destruct v; simpl; by rewrite app_nil_r.
  - intros [= <- <-]. destruct v; split; simpl in *; rewrite ?app_nil_r in *; congruence.
  - intros Hrest.
    assert (RPCGen.Type_ r1 = T) as HT1 by congruence.
    destruct (WalkList_walked T _ nodes IH r1 u r' HT1 Hrest)
      as (HS' & HTy' & HP' & HR' & HC' & HM').
    split; simpl; try congruence.
    + rewrite HC', HC. destruct v; simpl; by rewrite app_nil_r.
    + rewrite HM', HM. destruct v; simpl; by rewrite app_nil_r.
Qed.

(** X1. A walk that runs to its end appends to [Methods] the records of
    the method entries of every interface type that is the type of a
    declaration with the requested name, in walk order: each such
    declaration contributes, wherever it stands and however many there are,
    and nothing else does. *)
Theorem WalkFile_extracts_every_match (f : ast.File) (r r' : RPCGen.t) :
  WalkFile f r = Done tt r' ->
  RPCGen.Methods r'
  = RPCGen.Methods r
    ++ flat_map translate
         (flat_map (methodsSeen (RPCGen.Type_ r) VRPCGen) (ast.Decls f)).
Proof. intros H. apply Walk_walked in H. apply (walked_Methods _ _ _ _ _ H). Qed.

Lemma WalkFile_extracts_every_match_witness :
  (exists r',
     WalkFile sample_twice.file (newRPCGen sample.flags sample_twice.file) = Done tt r'
     /\ map Method.Name (RPCGen.Methods r') = ["Add"; "Sleep"])
  /\ (exists r',
        WalkFile sample_twice.struct_file (newRPCGen sample.flags sample_twice.struct_file)
        = Done tt r'
        /\ RPCGen.Methods r' = []).
Proof.
  split.
  - assert (exists r', WalkFile sample_twice.file
                         (newRPCGen sample.flags sample_twice.file) = Done tt r')
      as [r' H] by (eexists; vm_compute; reflexivity).
    exists r'. split; [exact H|].
    rewrite (WalkFile_extracts_every_match _ _ _ H). reflexivity.
  - assert (exists r', WalkFile sample_twice.struct_file
                         (newRPCGen sample.flags sample_twice.struct_file) = Done tt r')
      as [r' H] by (eexists; vm_compute; reflexivity).
    exists r'. split; [exact H|].
    rewrite (WalkFile_extracts_every_match _ _ _ H). reflexivity.
Defined.

(** X2. A walk that runs to its end has appended to [CheckImports] every
    import spec it passed with the [RPCGen] visitor, in source order, and
    nothing else. *)
Theorem WalkFile_collects_imports (f : ast.File) (r r' : RPCGen.t) :
  WalkFile f r = Done tt r' ->
  RPCGen.CheckImports r'
  = RPCGen.CheckImports r
    ++ flat_map (importsSeen (RPCGen.Type_ r) VRPCGen) (ast.Decls f).
Proof. intros H. apply Walk_walked in H. apply (walked_CheckImports _ _ _ _ _ H). Qed.

Lemma WalkFile_collects_imports_witness :
  exists r',
    WalkFile sample_twice.file (newRPCGen sample.flags sample_twice.file) = Done tt r'
    /\ RPCGen.CheckImports r' = [sample_time.time].
Proof.
  assert (exists r', WalkFile sample_twice.file
                       (newRPCGen sample.flags sample_twice.file) = Done tt r')
    as [r' H] by (eexists; vm_compute; reflexivity).
  exists r'. split; [exact H|].
  rewrite (WalkFile_collects_imports _ _ _ H). reflexivity.
Defined.

(** X3. Whatever a run writes is the rendering of a model that carries
    the configuration unchanged: the requested type name, the service name
    or else the type name, the package flag or else the package of the
    source file, and the client type; the walk never touches them. *)
Theorem main_renders_the_configuration (w : World) (flags : Flags) (path text : string) :
  WriteOut path text ∈ events (main w flags) ->
  exists f gen,
    ParseFile w (source flags) = inr f
    /\ text = render gen
    /\ path = targetPath flags
    /\ RPCGen.Type_ gen = rpcType flags
    /\ RPCGen.Service gen
       = (if String.eqb (serviceName flags) "" then rpcType flags else serviceName flags)
    /\ RPCGen.Package gen
       = (if String.eqb (packageFlag flags) "" then ast.PkgName f else packageFlag flags)
    /\ RPCGen.RPCType gen = rpcClientTypeFlag flags.
Proof.
  intros H.
  assert (path = targetPath flags) as Hpath.
  { revert H. unfold main, fatal.
    destruct (String.eqb (source flags) "" || String.eqb (rpcType flags) "").
    { simpl. intros H. apply list_elem_of_singleton in H. done. }
    destruct (ParseFile w (source flags)) as [err|f].
    { simpl. intros H. apply list_elem_of_singleton in H. done. }
    destruct (WalkFile f (newRPCGen flags f)) as [[] gen|e].
    2:{ simpl. intros H. apply list_elem_of_singleton in H. done. }
    destruct (CreateError w (targetPath flags)).
    { simpl. intros H. apply list_elem_of_singleton in H. done. }
    intros H.
    destruct (WriteError w _ _); [|destruct (GoFmtError w _ _)]; simpl in H;
      repeat (apply elem_of_cons in H as [H|H]; [by inversion H|]);
      try (apply elem_of_app in H as [H|H]);
      repeat (apply elem_of_cons in H as [H|H]; [by inversion H|]);
      by apply elem_of_nil in H. }
  apply main_writes in H as (f & gen & Hparse & Hwalk & ->).
  apply Walk_walked in Hwalk as [HS HT HP HR _ _].
  exists f, gen. split_and!; done.
Qed.

Lemma main_renders_the_configuration_witness :
  let w := sample.world sample_twice.file in
  exists text gen,
    WriteOut "out/stubs.go" text ∈ events (main w sample_twice.flags)
    /\ text = render gen
    /\ RPCGen.Service gen = "Calc" /\ RPCGen.Package gen = "stubs"
    /\ RPCGen.RPCType gen = "Caller" /\ RPCGen.Type_ gen = "Arith".
Proof.
  assert (exists text, WriteOut "out/stubs.go" text
            ∈ events (main (sample.world sample_twice.file) sample_twice.flags))
    as [text Hin].
  { eexists. apply elem_of_cons. right. apply elem_of_cons. left. vm_compute. reflexivity. }
  destruct (main_renders_the_configuration _ _ _ _ Hin)
    as (f & gen & _ & Ht & _ & HT & HS & HP & HR).
  exists text, gen. split_and!; done.
Defined.

(** ** The formatter and the import set *)

Lemma for_each_keeps_in {A} (P : RPCGen.t -> Prop) (xs : list A) (body : A -> Gen unit) :
  (forall x r u r', x ∈ xs -> body x r = Done u r' -> P r -> P r') ->
  forall r u r', for_each xs body r = Done u r' -> P r -> P r'.
Proof.
  induction xs as [|x xs IH]; intros Hbody r u r' Hrun HP; simpl in Hrun.
  - unfold ret in Hrun. by inversion Hrun; subst.
  - unfold bind in Hrun. destruct (body x r) as [u1 r1|e] eqn:Hx; [|done].
    eapply IH; [|exact Hrun|].
    + intros y r2 u2 r3 Hy. apply Hbody. apply elem_of_cons. by right.
    + eapply Hbody; eauto. apply elem_of_cons. by left.
Qed.

Lemma covers_refl r : covers r r.
Proof. by intros key. Qed.

Lemma grows_covers r r' s : grows r r' -> covers r' s -> covers r s.
Proof. intros Hg Hc key Hk. apply Hc. by apply (grows_Imports _ _ Hg). Qed.

Lemma checkImport_absorbed q imp r u r1 s :
  checkImport q imp r = Done u r1 -> covers r1 s -> checkImport q imp s = Done tt s.
Proof.
  unfold checkImport, bind, lift. destruct (importPath imp) as [e|path]; [done|].
  unfold ret. intros Hrun Hc.
  destruct (ast.Name imp) as [alias|]; [destruct (String.eqb alias q)|];
    try destruct (String.eqb (filepath.Base path) q);
    try done;
    apply register_again, Hc; eapply register_registers; eauto.
Qed.

(** A loop whose steps only register keys does nothing when run on a
    model that already has the keys it registered. *)
Lemma for_each_absorbed {A} (P : RPCGen.t -> Prop) (xs : list A)
    (body : A -> Gen unit) (s : RPCGen.t) :
  (forall x r u r1, body x r = Done u r1 -> P r -> P r1 /\ grows r r1) ->
  (forall x r u r1, body x r = Done u r1 -> P r -> covers r1 s -> body x s = Done tt s) ->
  forall r u r', for_each xs body r = Done u r' -> P r -> covers r' s ->
                 for_each xs body s = Done tt s.
Proof.
  intros Hstep Habs. induction xs as [|x xs IH]; intros r u r' Hrun HP Hc; [done|].
  simpl in *. unfold bind in *.
  destruct (body x r) as [u1 r1|e] eqn:Hx; [|done].
  destruct (Hstep _ _ _ _ Hx HP) as [HP1 Hg1].
  assert (grows r1 r') as Hg.
  { eapply (for_each_keeps (fun r2 => P r2 /\ grows r1 r2));
      [|exact Hrun|split; [exact HP1|apply grows_refl]].
    intros y r2 u2 r3 Hy [HP2 Hg2]. destruct (Hstep _ _ _ _ Hy HP2) as [HP3 Hg3].
    split; [exact HP3|]. eapply grows_trans; eauto. }
  rewrite (Habs _ _ _ _ Hx HP); [eapply IH; eauto|].
  eapply grows_covers; eauto.
Qed.

Lemma resolveImports_absorbed typeName r u r1 s :
  RPCGen.CheckImports s = RPCGen.CheckImports r ->
  resolveImports typeName r = Done u r1 -> covers r1 s ->
  resolveImports typeName s = Done tt s.
Proof.
  intros Hsame. unfold resolveImports.
  destruct (strings.SplitN typeName dot 2) as [|q [|? ?]]; try done.
  unfold bind, get. rewrite Hsame. intros Hrun Hc.
  eapply (for_each_absorbed (fun _ => True)); [| |exact Hrun|done|exact Hc].
  - intros imp r2 u2 r3 Hstep _. split; [done|]. eapply checkImport_grows; eauto.
  - intros imp r2 u2 r3 Hstep _ Hc3. eapply checkImport_absorbed; eauto.
Qed.

Lemma formatType_absorbed field r t r' s :
  formatType field r = Done t r' ->
  RPCGen.CheckImports s = RPCGen.CheckImports r ->
  covers r' s ->
  formatType field s = Done t s.
Proof.
  rewrite !formatType_unfold.
  destruct (ast.Names field) as [|n names]; [done|].
  destruct (types (ast.Type_ field)) as [e|typeNames]; [done|].
  destruct (for_each typeNames resolveImports r) as [[] r1|e] eqn:Hloop; [|done].
  destruct (bindNames _ _) as [e|t1]; [done|].
  intros [= <- <-] Hsame Hc.
  rewrite (for_each_absorbed
             (fun r2 => RPCGen.CheckImports r2 = RPCGen.CheckImports r)
             typeNames resolveImports s) with (r := r) (u := tt) (r' := r1); try done.
  - intros x r2 u2 r3 Hstep HP. pose proof (resolveImports_grows _ _ _ _ Hstep) as Hg.
    split; [|exact Hg]. rewrite <- HP. apply (grows_CheckImports _ _ Hg).
  - intros x r2 u2 r3 Hstep HP Hc3.
    apply (resolveImports_absorbed x r2 u2 r3 s); [congruence|exact Hstep|exact Hc3].
Qed.

(** X4. Formatting a field a second time, or formatting another field
    when every key the first one registered is still registered and the
    collected imports are the same, returns the same [Type] record and
    leaves the model exactly as it is: a repeated reference adds nothing
    to the import set. *)
Theorem formatType_again_changes_nothing
    (field : ast.Field) (r r' s : RPCGen.t) (t : Type_.t) :
  formatType field r = Done t r' ->
  RPCGen.CheckImports s = RPCGen.CheckImports r ->
  covers r' s ->
  formatType field s = Done t s /\ formatType field r' = Done t r'.
Proof.
  intros Hrun Hsame Hc. split; [eapply formatType_absorbed; eauto|].
  eapply formatType_absorbed; [exact Hrun| |apply covers_refl].
  apply formatType_Done in Hrun as (_ & _ & _ & _ & Hg). apply (grows_CheckImports _ _ Hg).
Qed.

Lemma formatType_again_changes_nothing_witness :
  let field := sample.field (sample.at_ 6 8) ["d"] sample.duration in
  let r := RPCGen.set_CheckImports sample.gen0 [sample_time.time] in
  let r' := RPCGen.set_Imports r (<["time" := true]> (RPCGen.Imports r)) in
  formatType field r = Done (Type_.mk ["D"] ["d"] "time.Duration") r'
  /\ formatType field r' = Done (Type_.mk ["D"] ["d"] "time.Duration") r'.
Proof.
  split; [vm_compute; reflexivity|].
  apply (formatType_again_changes_nothing
           (sample.field (sample.at_ 6 8) ["d"] sample.duration)
           (RPCGen.set_CheckImports sample.gen0 [sample_time.time])
           (RPCGen.set_Imports (RPCGen.set_CheckImports sample.gen0 [sample_time.time])
              (<["time" := true]> (RPCGen.Imports sample.gen0)))
           (RPCGen.set_Imports (RPCGen.set_CheckImports sample.gen0 [sample_time.time])
              (<["time" := true]> (RPCGen.Imports sample.gen0)))
           (Type_.mk ["D"] ["d"] "time.Duration")).
  - vm_compute; reflexivity.
  - reflexivity.
  - intros key Hk. exact Hk.
Defined.

Lemma adds_refl imps r : adds imps r r.
Proof. intros key. by left. Qed.

Lemma adds_trans imps r1 r2 r3 : adds imps r1 r2 -> adds imps r2 r3 -> adds imps r1 r3.
Proof.
  intros H12 H23 key. destruct (H23 key) as [H|H]; [|by right].
  rewrite H. apply H12.
Qed.

Lemma register_adds imps key r u r' :
  fromImport imps key -> register key r = Done u r' -> adds imps r r'.
Proof.
  intros Hfrom. rewrite register_spec. intros [= <- <-] k. simpl.
  destruct (decide (key = k)) as [<-|Hne].
  - right. by rewrite lookup_insert_eq.
  - left. by rewrite lookup_insert_ne.
Qed.

Lemma checkImport_adds imps q imp r u r' :
  imp ∈ imps -> checkImport q imp r = Done u r' -> adds imps r r'.
Proof.
  intros Hin. unfold checkImport, bind, lift.
  destruct (importPath imp) as [e|path] eqn:Hpath; [done|]. unfold ret.
  destruct (ast.Name imp) as [alias|] eqn:Hname; [destruct (String.eqb alias q)|];
    try destruct (String.eqb (filepath.Base path) q);
    try (intros [= <- <-]; apply adds_refl);
    apply register_adds; exists imp, path; split_and!; try done; eauto.
Qed.

Lemma resolveImports_adds typeName r u r' :
  resolveImports typeName r = Done u r' -> adds (RPCGen.CheckImports r) r r'.
Proof.
  unfold resolveImports.
  destruct (strings.SplitN typeName dot 2) as [|q [|? ?]];
    try (unfold ret; intros [= <- <-]; apply adds_refl).
  unfold bind, get. intros Hrun.
  eapply (for_each_keeps_in (adds (RPCGen.CheckImports r) r)); [|exact Hrun|apply adds_refl].
  intros imp r1 u1 r2 Hin Hstep Ha. eapply adds_trans; [exact Ha|].
  eapply checkImport_adds; eauto.
Qed.

Lemma formatType_adds field r t r' :
  formatType field r = Done t r' -> adds (RPCGen.CheckImports r) r r'.
Proof.
  intros Hrun. apply formatType_Done in Hrun as (_ & _ & _ & (typeNames & _ & Hloop) & _).
  eapply (for_each_keeps
            (fun r1 => RPCGen.CheckImports r1 = RPCGen.CheckImports r
                       /\ adds (RPCGen.CheckImports r) r r1));
    [|exact Hloop|split; [done|apply adds_refl]].
  intros x r1 u1 r2 Hstep [Hsame Ha].
  pose proof (resolveImports_grows _ _ _ _ Hstep) as Hg.
  split; [rewrite <- Hsame; apply (grows_CheckImports _ _ Hg)|].
  eapply adds_trans; [exact Ha|]. rewrite <- Hsame. eapply resolveImports_adds; eauto.
Qed.

(** X5. The formatter never invents an import: after a successful call
    every entry of the import set is either as it was before, or is set to
    [true] under a key made from an import the walk has collected, namely
    that import's path or its alias, a space and its path.  With no import
    collected the import set stays as it is. *)
Theorem formatType_registers_only_imports
    (field : ast.Field) (r r' : RPCGen.t) (t : Type_.t) :
  formatType field r = Done t r' ->
  (forall key,
     RPCGen.Imports r' !! key = RPCGen.Imports r !! key
     \/ (RPCGen.Imports r' !! key = Some true
         /\ exists imp path,
              imp ∈ RPCGen.CheckImports r /\ importPath imp = inr path /\
              (key = path
               \/ exists alias, ast.Name imp = Some alias
                                /\ key = alias +:+ " " +:+ path)))
  /\ (RPCGen.CheckImports r = [] -> RPCGen.Imports r' = RPCGen.Imports r).
Proof.
  intros Hrun. pose proof (formatType_adds _ _ _ _ Hrun) as Ha. split; [exact Ha|].
  intros Hnil. apply map_eq. intros key. destruct (Ha key) as [H|[_ (imp & _ & Hin & _)]].
  - exact H.
  - rewrite Hnil in Hin. by apply elem_of_nil in Hin.
Qed.

Lemma formatType_registers_only_imports_witness :
  let field := sample.field (sample.at_ 6 8) ["d"] sample.duration in
  let r := RPCGen.set_CheckImports sample.gen0 [sample_time.time] in
  exists t r',
    formatType field r = Done t r'
    /\ RPCGen.Imports r !! "time" = None
    /\ RPCGen.Imports r' !! "time" = Some true
    /\ (exists imp path,
          imp ∈ RPCGen.CheckImports r /\ importPath imp = inr path /\
          ("time" = path
           \/ exists alias, ast.Name imp = Some alias
                            /\ "time" = alias +:+ " " +:+ path))
    /\ RPCGen.Imports r' !! "net/rpc" = RPCGen.Imports r !! "net/rpc".
Proof.
  assert (exists t r', formatType (sample.field (sample.at_ 6 8) ["d"] sample.duration)
                         (RPCGen.set_CheckImports sample.gen0 [sample_time.time])
                       = Done t r'
                       /\ RPCGen.Imports r' !! "time" <> None
                       /\ RPCGen.Imports r' !! "net/rpc" = Some true)
    as (t & r' & H & Hnew & Hold)
    by (eexists _, _; split_and!; [vm_compute; reflexivity|discriminate|reflexivity]).
  pose proof (proj1 (formatType_registers_only_imports _ _ _ _ H)) as Honly.
  exists t, r'. split; [exact H|]. split; [reflexivity|].
  destruct (Honly "time") as [Hsame|[Hset Hfrom]].
  - exfalso. apply Hnew. rewrite Hsame. reflexivity.
  - split; [exact Hset|]. split; [exact Hfrom|].
    destruct (Honly "net/rpc") as [Hsame|[Hset' _]].
    + exact Hsame.
    + rewrite Hset'. reflexivity.
Defined.

Lemma cut_none sep s : has_byte sep s = false -> strings.cut sep s = None.
Proof.
  induction s as [|c s IH]; simpl; [done|].
  intros H. apply orb_false_iff in H as [Hc Hs]. by rewrite Hc, IH.
Qed.

Lemma resolveImports_unqualified typeName r :
  has_byte dot typeName = false -> resolveImports typeName r = Done tt r.
Proof.
  intros H. unfold resolveImports. simpl. by rewrite cut_none.
Qed.

Lemma for_each_unqualified typeNames : forall r,
  Forall (fun n => has_byte dot n = false) typeNames ->
  for_each typeNames resolveImports r = Done tt r.
Proof.
  induction typeNames as [|n rest IH]; intros r Hall; [done|].
  inversion Hall as [|? ? Hn Hrest]; subst. simpl. unfold bind.
  rewrite resolveImports_unqualified by done. by apply IH.
Qed.

(** X6. A field whose type names no package, such as [int], [[]string]
    or [map[string]*T], leaves the whole model as it is, whatever imports
    the file has: only qualified names are looked up among the imports. *)
Theorem formatType_unqualified_changes_nothing
    (field : ast.Field) (r r' : RPCGen.t) (t : Type_.t) (typeNames : list string) :
  types (ast.Type_ field) = inr typeNames ->
  Forall (fun n => has_byte dot n = false) typeNames ->
  formatType field r = Done t r' ->
  r' = r.
Proof.
  intros Ht Hall. rewrite formatType_unfold, Ht.
  destruct (ast.Names field); [done|].
  rewrite for_each_unqualified by done.
  destruct (bindNames _ _); [done|]. by intros [= <- <-].
Qed.

Lemma formatType_unqualified_changes_nothing_witness :
  let int_import := {| ast.Name := Some "string"; ast.Path := dq +:+ "x/int" +:+ dq |} in
  let r := RPCGen.set_CheckImports sample.gen0 [int_import] in
  let field := sample.field (sample.at_ 4 6) ["m"]
                 (ast.MapType (ast.Ident "string") (ast.ArrayType None sample.int)) in
  exists t r', formatType field r = Done t r' /\ r' = r.
Proof.
  assert (exists t r',
            formatType
              (sample.field (sample.at_ 4 6) ["m"]
                 (ast.MapType (ast.Ident "string") (ast.ArrayType None sample.int)))
              (RPCGen.set_CheckImports sample.gen0
                 [{| ast.Name := Some "string"; ast.Path := dq +:+ "x/int" +:+ dq |}])
            = Done t r')
    as (t & r' & H) by (eexists _, _; vm_compute; reflexivity).
  exists t, r'. split; [exact H|].
  apply (formatType_unqualified_changes_nothing
           (sample.field (sample.at_ 4 6) ["m"]
              (ast.MapType (ast.Ident "string") (ast.ArrayType None sample.int)))
           _ _ t ["string"; "int"]); [reflexivity| |exact H].
  repeat constructor.
Defined.

(** ** Import literals and last path segments *)

Lemma substring_prefix p : forall s, substring 0 (String.length p) (p +:+ s) = p.
Proof.
  induction p as [|c p IH]; intros s.
  - change ("" +:+ s) with s. simpl. by destruct s.
  - change (String c p +:+ s) with (String c (p +:+ s)). simpl. by rewrite IH.
Qed.

Lemma importPath_quoted alias p :
  importPath {| ast.Name := alias; ast.Path := dq +:+ p +:+ dq |} = inr p.
Proof.
  unfold importPath. cbn [ast.Path].
  change (dq +:+ p +:+ dq) with (String (byte_of 34) (p +:+ dq)).
  cbn [String.length]. rewrite length_append.
  replace (S (String.length p + String.length dq) <? 2) with false
    by (symmetry; apply Nat.ltb_ge; simpl; lia).
  replace (S (String.length p + String.length dq) - 2) with (String.length p)
    by (simpl; lia).
  cbn [substring]. by rewrite substring_prefix.
Qed.

Lemma importPath_short alias v :
  String.length v < 2 -> importPath {| ast.Name := alias; ast.Path := v |} = inl PanicBounds.
Proof.
  intros H. unfold importPath. cbn [ast.Path].
  by replace (String.length v <? 2) with true by (symmetry; by apply Nat.ltb_lt).
Qed.

Lemma list_ascii_of_append a b :
  list_ascii_of_string (a +:+ b) = list_ascii_of_string a ++ list_ascii_of_string b.
Proof.
  induction a as [|c a IH]; [done|].
  change (String c a +:+ b) with (String c (a +:+ b)). simpl. by rewrite IH.
Qed.

Lemma has_byte_Forall c s :
  has_byte c s = false ->
  Forall (fun x => Ascii.eqb x c = false) (list_ascii_of_string s).
Proof.
  induction s as [|x s IH]; simpl; [constructor|].
  intros H. apply orb_false_iff in H as [Hx Hs]. constructor; auto.
Qed.

Lemma strip_trailing_slashes_none l rest :
  l <> [] -> Forall (fun x => Ascii.eqb x filepath.slash = false) l ->
  filepath.strip_trailing_slashes (l ++ rest) = l ++ rest.
Proof.
  destruct l as [|x l]; [done|]. intros _ Hall.
  inversion Hall as [|? ? Hx _]; subst. simpl. by rewrite Hx.
Qed.

Lemma until_slash_stops l rest :
  Forall (fun x => Ascii.eqb x filepath.slash = false) l ->
  filepath.until_slash (l ++ filepath.slash :: rest) = l
  /\ filepath.until_slash l = l.
Proof.
  induction 1 as [|x l Hx _ [IH1 IH2]]; simpl.
  - done.
  - by rewrite Hx, IH1, IH2.
Qed.

Lemma Base_last_segment q :
  q <> "" -> has_byte filepath.slash q = false ->
  filepath.Base q = q /\ forall dir, filepath.Base (dir +:+ "/" +:+ q) = q.
Proof.
  intros Hne Hq.
  pose proof (has_byte_Forall _ _ Hq) as Hall.
  assert (List.rev (list_ascii_of_string q) <> []) as Hrev.
  { destruct q as [|c q]; [done|]. simpl. intros H. by apply app_eq_nil in H as [_ ?]. }
  assert (Forall (fun x => Ascii.eqb x filepath.slash = false)
                 (List.rev (list_ascii_of_string q))) as Hall'.
  { by apply List.Forall_rev. }
  assert (match List.rev (list_ascii_of_string q) with
          | [] => String filepath.slash ""
          | a :: l => string_of_list_ascii (List.rev (a :: l))
          end = q) as Hlast.
  { destruct (List.rev (list_ascii_of_string q)) eqn:E; [done|].
    rewrite <- E, rev_involutive. apply string_of_list_ascii_of_string. }
  split.
  - unfold filepath.Base. destruct q as [|c q]; [done|].
    rewrite <- (app_nil_r (List.rev (list_ascii_of_string (String c q)))).
    rewrite strip_trailing_slashes_none by done. rewrite app_nil_r.
    rewrite (proj2 (until_slash_stops _ [] Hall')). exact Hlast.
  - intros dir. unfold filepath.Base.
    change ("/" +:+ q) with (String filepath.slash q).
    destruct (dir +:+ String filepath.slash q) as [|c path] eqn:E.
    { destruct dir; discriminate. }
    rewrite <- E, list_ascii_of_append. simpl list_ascii_of_string.
    rewrite rev_app_distr. simpl List.rev. rewrite <- app_assoc. simpl app.
    rewrite strip_trailing_slashes_none by done.
    rewrite (proj1 (until_slash_stops _ _ Hall')). exact Hlast.
Qed.

Lemma checkImport_unaliased q path r :
  filepath.Base path = q ->
  checkImport q {| ast.Name := None; ast.Path := dq +:+ path +:+ dq |} r = register path r.
Proof.
  intros Hbase. unfold checkImport, bind, lift. rewrite importPath_quoted.
  unfold ret at 1. cbn [ast.Name]. by rewrite Hbase, String.eqb_refl.
Qed.

(** X7. The body of the loop over the collected imports, on an import
    written as a quoted literal and the qualifier [q]: the quotes are
    stripped; an import with alias [q] is registered as [q], a space and
    its path; an import without that alias whose path is [q] or ends in
    [/q] is registered under its path, whether it has another alias or
    none; an import with neither is left alone; and a literal shorter than
    two bytes makes the slice expression panic. *)
Theorem checkImport_on_quoted_literals (q dir p : string) (r : RPCGen.t) :
  q <> "" -> has_byte filepath.slash q = false ->
  checkImport q {| ast.Name := Some q; ast.Path := dq +:+ p +:+ dq |} r
  = register (q +:+ " " +:+ p) r
  /\ checkImport q {| ast.Name := None; ast.Path := dq +:+ q +:+ dq |} r = register q r
  /\ checkImport q {| ast.Name := None; ast.Path := dq +:+ dir +:+ "/" +:+ q +:+ dq |} r
     = register (dir +:+ "/" +:+ q) r
  /\ (forall other, other <> q ->
        checkImport q {| ast.Name := Some other;
                         ast.Path := dq +:+ dir +:+ "/" +:+ q +:+ dq |} r
        = register (dir +:+ "/" +:+ q) r)
  /\ (forall alias, alias <> Some q -> filepath.Base p <> q ->
        checkImport q {| ast.Name := alias; ast.Path := dq +:+ p +:+ dq |} r = Done tt r)
  /\ (forall alias v, String.length v < 2 ->
        checkImport q {| ast.Name := alias; ast.Path := v |} r = Stopped PanicBounds).
Proof.
  intros Hne Hq. destruct (Base_last_segment q Hne Hq) as [Hself Hdir].
  split_and!.
  - unfold checkImport, bind, lift. rewrite importPath_quoted.
    unfold ret at 1. cbn [ast.Name]. by rewrite String.eqb_refl.
  - by apply checkImport_unaliased.
  - replace (dir +:+ "/" +:+ q +:+ dq) with ((dir +:+ "/" +:+ q) +:+ dq)
      by (by rewrite !append_assoc).
    by apply checkImport_unaliased.
  - intros other Hother.
    replace (dir +:+ "/" +:+ q +:+ dq) with ((dir +:+ "/" +:+ q) +:+ dq)
      by (by rewrite !append_assoc).
    unfold checkImport, bind, lift. rewrite importPath_quoted.
    unfold ret at 1. cbn [ast.Name].
    apply String.eqb_neq in Hother. by rewrite Hother, Hdir, String.eqb_refl.
  - intros alias Halias Hbase. unfold checkImport, bind, lift. rewrite importPath_quoted.
    unfold ret at 1. apply String.eqb_neq in Hbase. rewrite Hbase.
    destruct alias as [a|]; cbn [ast.Name]; [|done].
    assert (a <> q) as Ha by congruence. apply String.eqb_neq in Ha. by rewrite Ha.
  - intros alias v Hv. unfold checkImport, bind, lift. by rewrite importPath_short.
Qed.

Lemma checkImport_on_quoted_literals_witness :
  checkImport "rpc" {| ast.Name := None; ast.Path := dq +:+ "net" +:+ "/" +:+ "rpc" +:+ dq |}
    sample.gen0
  = register ("net" +:+ "/" +:+ "rpc") sample.gen0
  /\ checkImport "rpc" {| ast.Name := Some "rpc"; ast.Path := dq +:+ "x/y" +:+ dq |}
       sample.gen0
     = register ("rpc" +:+ " " +:+ "x/y") sample.gen0.
Proof.
  destruct (checkImport_on_quoted_literals "rpc" "net" "x/y" sample.gen0)
    as (Halias & _ & Hdir & _); [discriminate|reflexivity|].
  split; [exact Hdir|exact Halias].
Defined.

(** ** Field lists *)

Lemma Join_app sep xs ys :
  xs <> [] -> ys <> [] ->
  strings.Join (xs ++ ys) sep = strings.Join xs sep +:+ sep +:+ strings.Join ys sep.
Proof.
  unfold strings.Join. intros Hx Hy. induction xs as [|x xs IH]; [done|].
  destruct xs as [|x' xs].
  - destruct ys as [|y ys]; [done|]. done.
  - change (String.concat sep ((x :: x' :: xs) ++ ys))
      with (x +:+ sep +:+ String.concat sep ((x' :: xs) ++ ys)).
    rewrite IH by done.
    change (String.concat sep (x :: x' :: xs))
      with (x +:+ sep +:+ String.concat sep (x' :: xs)).
    by rewrite !append_assoc.
Qed.

Lemma Join_cons sep x xs :
  xs <> [] -> strings.Join (x :: xs) sep = x +:+ sep +:+ strings.Join xs sep.
Proof. by destruct xs. Qed.

(** Joining joined groups is joining their concatenation, when no group
    is empty. *)
Lemma Join_groups sep (groups : list (list string)) :
  Forall (fun g => g <> []) groups ->
  strings.Join (map (fun g => strings.Join g sep) groups) sep
  = strings.Join (List.concat groups) sep.
Proof.
  induction 1 as [|g rest Hg Hrest IH]; [done|].
  destruct rest as [|g' rest].
  - cbn [map List.concat]. rewrite app_nil_r. done.
  - change (map (fun g => strings.Join g sep) (g :: g' :: rest))
      with (strings.Join g sep :: map (fun g => strings.Join g sep) (g' :: rest)).
    rewrite Join_cons by done. rewrite IH.
    change (List.concat (g :: g' :: rest)) with (g ++ List.concat (g' :: rest)).
    rewrite Join_app; [done|done|].
    inversion Hrest as [|? ? Hg' _]; subst.
    change (List.concat (g' :: rest)) with (g' ++ List.concat rest).
    by destruct g'.
Qed.

Lemma FieldList_references fields prefix public :
  Forall (fun p => Type_.Names p <> [] /\ Type_.LowerNames p <> []) fields ->
  FieldList fields prefix ", " false public
  = strings.Join
      (map (fun n => prefix +:+ n)
           (flat_map (if public then Type_.Names else Type_.LowerNames) fields))
      ", ".
Proof.
  intros Hall. unfold FieldList.
  rewrite (map_ext _ (fun p => strings.Join
                        (map (fun n => prefix +:+ n)
                             ((if public then Type_.Names else Type_.LowerNames) p)) ", ")).
  2:{ intros p. rewrite append_empty_r. by destruct public. }
  rewrite <- (map_map (fun p => map (fun n => prefix +:+ n)
                                   ((if public then Type_.Names else Type_.LowerNames) p))
                      (fun g => strings.Join g ", ")).
  rewrite Join_groups.
  - f_equal. induction fields as [|p rest IH]; [done|]. simpl.
    inversion Hall; subst. rewrite map_app. f_equal. by apply IH.
  - induction Hall as [|p rest [Hn Hl] _ IH]; constructor; [|exact IH].
    destruct public; [by destruct (Type_.Names p)|by destruct (Type_.LowerNames p)].
Qed.

(** X8. For [Type] records with at least one name each, the reference
    lists of the template are flat: [refswithprefix] joins the prefixed
    original names of all records, and [publicrefswithprefix] the prefixed
    public names, in order and with one separator throughout, so that a
    group of co-typed identifiers is laid out like separate ones; with the
    empty prefix they join the [LowerNamesString]s and the [NamesString]s
    of the records. *)
Theorem FieldList_flattens_references (fields : list Type_.t) (prefix : string) :
  Forall (fun p => Type_.Names p <> [] /\ Type_.LowerNames p <> []) fields ->
  refswithprefix prefix fields
  = strings.Join (map (fun n => prefix +:+ n) (flat_map Type_.LowerNames fields)) ", "
  /\ publicrefswithprefix prefix fields
     = strings.Join (map (fun n => prefix +:+ n) (flat_map Type_.Names fields)) ", "
  /\ refswithprefix "" fields = strings.Join (map LowerNamesString fields) ", "
  /\ publicrefswithprefix "" fields = strings.Join (map NamesString fields) ", ".
Proof.
  intros Hall. split_and!.
  - by apply (FieldList_references fields prefix false).
  - by apply (FieldList_references fields prefix true).
  - unfold refswithprefix, FieldList, LowerNamesString. f_equal. apply map_ext.
    intros p. rewrite append_empty_r. f_equal. induction (Type_.LowerNames p); [done|].
    simpl. by f_equal.
  - unfold publicrefswithprefix, FieldList, NamesString. f_equal. apply map_ext.
    intros p. rewrite append_empty_r. f_equal. induction (Type_.Names p); [done|].
    simpl. by f_equal.
Qed.

Lemma FieldList_flattens_references_witness :
  let fields := [Type_.mk ["A"; "B"] ["a"; "b"] "int"; Type_.mk ["C"] ["c"] "string"] in
  refswithprefix "" fields = "a, b, c"
  /\ publicrefswithprefix "request." fields = "request.A, request.B, request.C".
Proof.
  destruct (FieldList_flattens_references
              [Type_.mk ["A"; "B"] ["a"; "b"] "int"; Type_.mk ["C"] ["c"] "string"] "")
    as (H1 & _); [repeat constructor; discriminate|].
  destruct (FieldList_flattens_references
              [Type_.mk ["A"; "B"] ["a"; "b"] "int"; Type_.mk ["C"] ["c"] "string"]
              "request.")
    as (_ & H2 & _); [repeat constructor; discriminate|].
  split; [rewrite H1|rewrite H2]; reflexivity.
Defined.

(** ** Splitting and joining *)

Lemma Split_nonempty s sep : strings.Split s sep <> [].
Proof.
  destruct s as [|c s]; simpl; [done|].
  destruct (Ascii.eqb c sep); [done|]. by destruct (strings.Split s sep).
Qed.

Lemma Split_without sep s : has_byte sep s = false -> strings.Split s sep = [s].
Proof.
  induction s as [|c s IH]; simpl; [done|].
  intros H. apply orb_false_iff in H as [Hc Hs]. by rewrite Hc, IH.
Qed.

Lemma Split_last sep ext : forall s,
  has_byte sep ext = false ->
  strings.Split (s +:+ String sep ext) sep = strings.Split s sep ++ [ext].
Proof.
  intros s Hext. induction s as [|c s IH].
  - change ("" +:+ String sep ext) with (String sep ext). simpl.
    by rewrite Ascii.eqb_refl, Split_without.
  - change (String c s +:+ String sep ext) with (String c (s +:+ String sep ext)).
    simpl. rewrite IH. destruct (Ascii.eqb c sep); [done|].
    pose proof (Split_nonempty s sep). by destruct (strings.Split s sep).
Qed.

Lemma concat_push sep c piece pieces :
  String.concat sep (String c piece :: pieces) = String c (String.concat sep (piece :: pieces)).
Proof. by destruct pieces. Qed.

(** [strings.Join(strings.Split(s, sep), sep)] is [s]. *)
Lemma Join_Split sep s : strings.Join (strings.Split s sep) (String sep "") = s.
Proof.
  unfold strings.Join. induction s as [|c s IH]; [done|]. simpl.
  destruct (Ascii.eqb c sep) eqn:Hc.
  - apply Ascii.eqb_eq in Hc as ->.
    pose proof (Split_nonempty s sep).
    destruct (strings.Split s sep) as [|p ps] eqn:E; [done|].
    change (String.concat (String sep "") ("" :: p :: ps))
      with (String sep (String.concat (String sep "") (p :: ps))).
    by rewrite IH.
  - pose proof (Split_nonempty s sep).
    destruct (strings.Split s sep) as [|p ps] eqn:E; [done|].
    by rewrite concat_push, IH.
Qed.

Lemma Split_pieces sep s :
  Forall (fun piece => has_byte sep piece = false) (strings.Split s sep).
Proof.
  induction s as [|c s IH]; simpl; [by constructor|].
  destruct (Ascii.eqb c sep) eqn:Hc; [by constructor|].
  pose proof (Split_nonempty s sep).
  destruct (strings.Split s sep) as [|p ps]; [done|].
  inversion IH; subst. constructor; [|done]. simpl. by rewrite Hc.
Qed.

(** X9. The default target: a source path [stem.ext] whose last part
    [ext] has no dot gives [stem] followed by [rpc.go], whatever dots and
    slashes [stem] holds; a source path without any dot gives just
    [rpc.go], so its own name and directory are lost. *)
Theorem defaultTarget_replaces_last_part (stem ext : string) :
  has_byte dot ext = false ->
  defaultTarget (stem +:+ "." +:+ ext) = stem +:+ "rpc.go"
  /\ defaultTarget ext = "rpc.go".
Proof.
  intros Hext. unfold defaultTarget. split.
  - change ("." +:+ ext) with (String dot ext).
    rewrite Split_last by done. rewrite removelast_last.
    change "."%string with (String dot ""). by rewrite Join_Split.
  - by rewrite Split_without.
Qed.

Lemma defaultTarget_replaces_last_part_witness :
  defaultTarget ("v1.2/arith" +:+ "." +:+ "go") = "v1.2/arith" +:+ "rpc.go"
  /\ defaultTarget "go" = "rpc.go".
Proof. apply (defaultTarget_replaces_last_part "v1.2/arith" "go"). reflexivity. Defined.

(** ** The import configuration *)

(** X10. The import set a run starts from: empty for the empty flag;
    otherwise exactly the pieces between the commas of the flag, each set
    to [true], none holding a comma, the empty piece included when two
    commas meet or the flag starts or ends with one; joined with commas
    the pieces give the flag back. *)
Theorem flagImports_are_the_pieces (flag : string) :
  flagImports "" = ∅
  /\ (flag <> "" ->
      (forall key, flagImports flag !! key = Some true <-> key ∈ strings.Split flag comma)
      /\ (forall key v, flagImports flag !! key = Some v ->
                        v = true /\ has_byte comma key = false)
      /\ strings.Join (strings.Split flag comma) "," = flag).
Proof.
  split; [done|]. intros Hne.
  assert (forall key, flagImports flag !! key
                      = if decide (key ∈ strings.Split flag comma) then Some true else None)
    as Hlook.
  { intros key. unfold flagImports. apply String.eqb_neq in Hne. rewrite Hne.
    rewrite flagImports_fold. by destruct (decide _). }
  split_and!.
  - intros key. rewrite Hlook. by destruct (decide _).
  - intros key v. rewrite Hlook. destruct (decide _) as [Hin|]; [|done].
    intros [= <-]. split; [done|].
    pose proof (Split_pieces comma flag) as Hall. rewrite Forall_forall in Hall. by apply Hall.
  - apply (Join_Split comma flag).
Qed.

Lemma flagImports_are_the_pieces_witness :
  (forall key, flagImports "net/rpc,,time" !! key = Some true
               <-> key ∈ strings.Split "net/rpc,,time" comma)
  /\ strings.Split "net/rpc,,time" comma = ["net/rpc"; ""; "time"].
Proof.
  split; [|reflexivity].
  apply (proj2 (flagImports_are_the_pieces "net/rpc,,time")). discriminate.
Defined.

(** ** The shapes of a run *)

Lemma exit_of_nonzero e : exit_of e <> 0.
Proof. by destruct e. Qed.

(** X11. Every run has one of four shapes.  It stops before it touches
    the target, with one diagnostic or panic as its only event and a
    nonzero exit code; or it creates the target, cannot write the rendered
    text to it, reports that the template could not be executed and exits
    with 1, with no closing message and no [go fmt]; or it creates the
    target, writes the rendered text, prints its message and calls
    [go fmt], in this order, and exits with 0; or it does all that,
    [go fmt] fails, and it exits with 1 leaving the written file behind.
    Without a source or a type flag the run is of the first shape with the
    usage diagnostic, whatever else holds. *)
Theorem main_run_shapes (w : World) (flags : Flags) :
  ((exists e, main w flags = {| events := [Stderr e]; exit_code := exit_of e |}
              /\ exit_of e <> 0)
   \/ (exists text err,
         CreateError w (targetPath flags) = None
         /\ WriteError w (targetPath flags) text = Some err
         /\ main w flags
            = {| events := [Create (targetPath flags);
                            Stderr (Fatalf ("failed to execute template: " +:+ err))];
                 exit_code := 1 |})
   \/ (exists text,
         CreateError w (targetPath flags) = None
         /\ WriteError w (targetPath flags) text = None
         /\ GoFmtError w (targetPath flags) text = None
         /\ main w flags
            = {| events := [Create (targetPath flags);
                            WriteOut (targetPath flags) text;
                            Stdout (Args0 w +:+ ": wrote RPC stubs for " +:+ rpcType flags
                                    +:+ " to " +:+ targetPath flags +:+ nl);
                            GoFmt (targetPath flags)];
                 exit_code := 0 |})
   \/ (exists text err,
         CreateError w (targetPath flags) = None
         /\ WriteError w (targetPath flags) text = None
         /\ GoFmtError w (targetPath flags) text = Some err
         /\ main w flags
            = {| events := [Create (targetPath flags);
                            WriteOut (targetPath flags) text;
                            Stdout (Args0 w +:+ ": wrote RPC stubs for " +:+ rpcType flags
                                    +:+ " to " +:+ targetPath flags +:+ nl);
                            GoFmt (targetPath flags);
                            Stderr (Fatalf ("failed to run go fmt on "
                                            +:+ targetPath flags +:+ ": " +:+ err))];
                 exit_code := 1 |}))
  /\ (source flags = "" \/ rpcType flags = "" ->
      main w flags = {| events := [Stderr (Fatalf "expected --source and --type")];
                        exit_code := 1 |}).
Proof.
  split.
  - unfold main, fatal.
    destruct (String.eqb (source flags) "" || String.eqb (rpcType flags) "").
    { left. eexists. split; [done|apply exit_of_nonzero]. }
    destruct (ParseFile w (source flags)) as [err|f].
    { left. eexists. split; [done|apply exit_of_nonzero]. }
    destruct (WalkFile f (newRPCGen flags f)) as [[] gen|e].
    2:{ left. eexists. split; [done|apply exit_of_nonzero]. }
    destruct (CreateError w (targetPath flags)) eqn:Hcreate.
    { left. eexists. split; [done|apply exit_of_nonzero]. }
    destruct (WriteError w (targetPath flags) (render gen)) as [err|] eqn:Hwrite.
    { right. left. by exists (render gen), err. }
    destruct (GoFmtError w (targetPath flags) (render gen)) as [err|] eqn:Hfmt.
    + right. right. right. by exists (render gen), err.
    + right. right. left. by exists (render gen).
  - intros H. unfold main, fatal.
    replace (String.eqb (source flags) "" || String.eqb (rpcType flags) "") with true; [done|].
    symmetry. apply orb_true_iff.
    destruct H as [-> | ->]; [left|right]; apply String.eqb_refl.
Qed.

Lemma main_run_shapes_witness :
  let w := sample.world (sample.file [sample.Add]) in
  main w (sample.flagsFor "")
  = {| events := [Stderr (Fatalf "expected --source and --type")]; exit_code := 1 |}
  /\ exists text err,
       WriteError (sample.unwritable w) "arithrpc.go" text = Some err
       /\ main (sample.unwritable w) sample.flags
          = {| events := [Create "arithrpc.go";
                          Stderr (Fatalf ("failed to execute template: " +:+ err))];
               exit_code := 1 |}.
Proof.
  split.
  - apply (proj2 (main_run_shapes (sample.world (sample.file [sample.Add]))
                                  (sample.flagsFor ""))).
    right. reflexivity.
  - destruct (proj1 (main_run_shapes
                       (sample.unwritable (sample.world (sample.file [sample.Add])))
                       sample.flags))
      as [(e & He & _)|[(text & err & _ & Hw & Hm)|[(text & _ & Hw & _)|(text & err & _ & Hw & _)]]].
    + vm_compute in He. discriminate He.
    + exists text, err. split; [exact Hw|exact Hm].
    + discriminate Hw.
    + discriminate Hw.
Defined.

(** The four shapes, each met by a run on [Arith]: the parser rejects the
    file; the target is a device that takes no data; all goes well;
    [go fmt] rejects the written file. *)
Example main_shapes_on_Arith :
  let f := sample.file [sample.Add] in
  let w := sample.world f in
  main (sample.unparsed w) sample.flags
  = {| events := [Stderr (Fatalf "failed to parse arith.go: arith.go:1:1: expected 'package'")];
       exit_code := 1 |}
  /\ main (sample.unwritable w) sample.flags
     = {| events := [Create "arithrpc.go";
                     Stderr (Fatalf "failed to execute template: write arithrpc.go: no space left on device")];
          exit_code := 1 |}
  /\ (exists text,
        main w sample.flags
        = {| events := [Create "arithrpc.go"; WriteOut "arithrpc.go" text;
                        Stdout ("go-rpcgen: wrote RPC stubs for Arith to arithrpc.go" +:+ nl);
                        GoFmt "arithrpc.go"];
             exit_code := 0 |})
  /\ (exists text,
        main (sample.unformattable w) sample.flags
        = {| events := [Create "arithrpc.go"; WriteOut "arithrpc.go" text;
                        Stdout ("go-rpcgen: wrote RPC stubs for Arith to arithrpc.go" +:+ nl);
                        GoFmt "arithrpc.go";
                        Stderr (Fatalf "failed to run go fmt on arithrpc.go: exit status 2: ")];
             exit_code := 1 |}).
Proof.
  split_and!.
  - vm_compute. reflexivity.
  - vm_compute. reflexivity.
  - eexists. vm_compute. reflexivity.
  - eexists. vm_compute. reflexivity.
Qed.

(** ** Public names *)

Lemma upper_of_lower c :
  strings.is_lower c = true ->
  strings.is_lower (byte_of (nat_of_ascii c - 32)) = false
  /\ strings.is_ascii (byte_of (nat_of_ascii c - 32)) = true.
Proof.
  unfold strings.is_lower, strings.is_ascii, byte_of. intros H.
  apply andb_true_iff in H as [H1 H2].
  apply Nat.leb_le in H1, H2.
  rewrite nat_ascii_embedding by lia. split.
  - apply andb_false_iff. left. apply Nat.leb_gt. lia.
  - apply Nat.ltb_lt. lia.
Qed.

(** X12. On a name that starts with an ASCII byte, making the public
    name keeps the length, gives a name that again starts with an ASCII
    byte, changes nothing when the first byte is not a lower-case letter
    (an identifier such as [_ctx] or [Max] is its own public name), and is
    idempotent; so a name and its capitalised form share one public
    name. *)
Theorem publicName_is_idempotent (name : string) :
  starts_ascii name = true ->
  publicName (publicName name) = publicName name
  /\ starts_ascii (publicName name) = true
  /\ String.length (publicName name) = String.length name
  /\ (forall first remainder,
        name = String first remainder -> strings.is_lower first = false ->
        publicName name = name).
Proof.
  destruct name as [|c rest]; [done|]. simpl. intros Hc.
  unfold strings.ToUpper1. rewrite Hc.
  destruct (strings.is_lower c) eqn:Hl.
  - destruct (upper_of_lower c Hl) as [Hl' Ha'].
    change (String (byte_of (nat_of_ascii c - 32)) "" +:+ rest)
      with (String (byte_of (nat_of_ascii c - 32)) rest).
    simpl. unfold strings.ToUpper1. rewrite Ha', Hl'. split_and!; try done.
    intros first remainder [= <- <-]. congruence.
  - change (String c "" +:+ rest) with (String c rest).
    simpl. unfold strings.ToUpper1. rewrite Hc, Hl. split_and!; done.
Qed.

Lemma publicName_is_idempotent_witness :
  publicName (publicName "result") = publicName "result"
  /\ publicName "result" = "Result" /\ publicName "Result" = "Result"
  /\ publicName "_ctx" = "_ctx".
Proof.
  split; [|repeat split; reflexivity].
  apply (publicName_is_idempotent "result"). reflexivity.
Defined.

(** ** What counts as the error type *)

Lemma has_byte_append c a b : has_byte c (a +:+ b) = has_byte c a || has_byte c b.
Proof.
  induction a as [|x a IH]; [done|].
  change (String x a +:+ b) with (String x (a +:+ b)). simpl. by rewrite IH, orb_assoc.
Qed.

(** X13. Among the type expressions [types] accepts, the printed type is
    [error] for the bare identifier [error] and for nothing else: a
    pointer to it, a qualified name that ends in it, a slice or a map of
    it print differently and stay in the results. *)
Theorem only_the_identifier_prints_as_error (e : ast.Expr) :
  supported e = true ->
  (printer.Fprint e = "error" <-> e = ast.Ident "error")
  /\ (isError (Type_.mk [] [] (printer.Fprint e)) = true <-> e = ast.Ident "error").
Proof.
  intros Hs.
  assert (printer.Fprint e = "error" <-> e = ast.Ident "error") as H.
  { split; [|by intros ->].
    destruct e as [name|x|x sel|key value|len elt|kind text]; simpl.
    - by intros ->.
    - change ("*" +:+ printer.Fprint x) with (String "*" (printer.Fprint x)). discriminate.
    - intros H. apply (f_equal (has_byte dot)) in H.
      rewrite has_byte_append in H.
      change ("." +:+ sel) with (String dot sel) in H. simpl in H.
      by rewrite orb_true_r in H.
    - change ("map[" +:+ printer.Fprint key +:+ "]" +:+ printer.Fprint value)
        with (String "m" ("ap[" +:+ printer.Fprint key +:+ "]" +:+ printer.Fprint value)).
      discriminate.
    - match goal with |- ?s = _ -> _ =>
        change s with (String "[" (match len with
                                   | Some l => printer.Fprint l
                                   | None => ""
                                   end +:+ "]" +:+ printer.Fprint elt))
      end. discriminate.
    - done. }
  split; [exact H|]. unfold isError. simpl. by rewrite String.eqb_eq.
Qed.

Lemma only_the_identifier_prints_as_error_witness :
  (printer.Fprint (ast.StarExpr sample.error) = "error"
   <-> ast.StarExpr sample.error = ast.Ident "error")
  /\ printer.Fprint (ast.StarExpr sample.error) = "*error".
Proof.
  split; [|reflexivity].
  apply (only_the_identifier_prints_as_error (ast.StarExpr sample.error)). reflexivity.
Defined.

(** ** Concatenation without a separator *)

Lemma concat_empty_cons x l : String.concat "" (x :: l) = x +:+ String.concat "" l.
Proof. destruct l; [by rewrite append_empty_r|done]. Qed.

Lemma concat_empty_app xs ys :
  String.concat "" (xs ++ ys) = String.concat "" xs +:+ String.concat "" ys.
Proof.
  induction xs as [|x xs IH]; [done|].
  change ((x :: xs) ++ ys) with (x :: (xs ++ ys)).
  by rewrite !concat_empty_cons, IH, append_assoc.
Qed.

(** ** What an accepted method looks like *)

Lemma formatFields_named fields : forall r ts r',
  formatFields fields r = Done ts r' -> Forall (fun v => ast.Names v <> []) fields.
Proof.
  induction fields as [|v rest IH]; intros r ts r'; simpl; [constructor|].
  unfold bind. destruct (formatType v r) as [t r1|e] eqn:Hv; [|done].
  destruct (formatFields rest r1) as [ts1 r2|e] eqn:Hrest; [|done].
  intros _. apply formatType_Done in Hv as (Hne & _). constructor; eauto.
Qed.

Lemma formatted_named fields :
  Forall (fun v => ast.Names v <> []) fields -> Forall named (map formatted fields).
Proof.
  induction 1 as [|v rest Hv _ IH]; constructor; [|exact IH].
  unfold named, formatted. simpl. rewrite length_map. split_and!; [|done|done].
  by destruct (ast.Names v).
Qed.

Lemma visitMethod_sound m r u r' :
  visitMethod m r = Done u r' ->
  Forall sound (translate m) /\ length (translate m) = (if isFunc m then 1 else 0).
Proof.
  unfold isFunc. destruct (ast.MType m) as [params results|e] eqn:Hty.
  - destruct (ast.MNames m) as [|name names] eqn:Hname.
    { unfold visitMethod. by rewrite Hty, Hname. }
    rewrite (visitMethod_func _ _ _ _ _ _ Hty Hname).
    destruct (formatFields params r) as [ps r1|e] eqn:Hps; [|done].
    destruct (formatFields (resultList results) r1) as [rs r2|e] eqn:Hrs; [|done].
    intros _. unfold translate. rewrite Hty, Hname. split; [|done].
    apply formatFields_named in Hps, Hrs.
    constructor; [|constructor]. unfold sound. simpl. split_and!.
    + by apply formatted_named.
    + apply Forall_forall. intros t Ht. apply list_elem_of_filter in Ht as [_ Ht].
      pose proof (formatted_named _ Hrs) as Hall. rewrite Forall_forall in Hall. by apply Hall.
    + apply Forall_forall. intros t Ht. by apply list_elem_of_filter in Ht as [Ht _].
  - intros _. unfold translate. by rewrite Hty.
Qed.

Lemma VisitMethodList_sound methods : forall r u r',
  VisitMethodList methods r = Done u r' ->
  Forall sound (flat_map translate methods)
  /\ length (flat_map translate methods)
     = length (filter (fun m => isFunc m = true) methods).
Proof.
  induction methods as [|m rest IH]; intros r u r'; [done|].
  rewrite VisitMethodList_cons.
  destruct (visitMethod m r) as [u1 r1|e] eqn:Hm; [|done].
  intros Hrest. destruct (IH _ _ _ Hrest) as [Hall Hlen].
  destruct (visitMethod_sound _ _ _ _ Hm) as [Hm1 Hm2].
  simpl. split; [by apply Forall_app|].
  rewrite length_app, Hm2, Hlen.
  destruct (isFunc m) eqn:Hf.
  - by rewrite filter_cons_True.
  - rewrite filter_cons_False; [done|]. by rewrite Hf.
Qed.

(** X15. A successful extraction appends one [Method] record per
    function entry of the method list, and each appended record is fit for
    the template: every parameter and result record has at least one name
    and as many public as original names, and no result record is of type
    [error]. *)
Theorem extracted_methods_are_sound (methods : list ast.Method) (r r' : RPCGen.t) :
  VisitMethodList methods r = Done tt r' ->
  exists added,
    RPCGen.Methods r' = RPCGen.Methods r ++ added
    /\ length added = length (filter (fun m => isFunc m = true) methods)
    /\ Forall sound added.
Proof.
  intros H. exists (flat_map translate methods).
  destruct (VisitMethodList_sound _ _ _ _ H) as [Hall Hlen].
  apply VisitMethodList_Done in H as (HM & _). by split_and!.
Qed.

Lemma extracted_methods_are_sound_witness :
  exists r' added,
    VisitMethodList [sample.Add; sample.Reader; sample_time.Until] sample.gen0 = Done tt r'
    /\ RPCGen.Methods r' = RPCGen.Methods sample.gen0 ++ added
    /\ length added = 2 /\ Forall sound added.
Proof.
  assert (exists r', VisitMethodList [sample.Add; sample.Reader; sample_time.Until]
                       sample.gen0 = Done tt r')
    as [r' H] by (eexists; vm_compute; reflexivity).
  destruct (extracted_methods_are_sound _ _ _ H) as (added & HM & Hlen & Hall).
  exists r', added. split_and!; done.
Defined.

(** * Declaration order and the import set, to the rendered text *)

(** ** Declaration order, in the model and in the rendered text *)

Lemma map_formatted_kept results :
  map formatted (keptResults results)
  = filter (fun t => isError t = false) (map formatted (resultList results)).
Proof.
  unfold keptResults. induction (resultList results) as [|v rest IH]; [done|].
  cbn [map].
  destruct (String.eqb (printer.Fprint (ast.Type_ v)) "error") eqn:Hv.
  - rewrite filter_cons_False by (by rewrite Hv).
    rewrite (filter_cons_False _ (formatted v)); [done|].
    unfold isError, formatted. simpl. by rewrite Hv.
  - rewrite filter_cons_True by done.
    rewrite (filter_cons_True _ (formatted v)) by (unfold isError, formatted; by simpl).
    cbn [map]. by rewrite IH.
Qed.

Lemma keptResults_named results :
  Forall (fun v => ast.Names v <> []) (resultList results) ->
  Forall (fun v => ast.Names v <> []) (keptResults results).
Proof.
  intros Hall. apply Forall_forall. intros v Hv.
  apply list_elem_of_filter in Hv as [_ Hv].
  rewrite Forall_forall in Hall. by apply Hall.
Qed.

Lemma map_unprefixed (names : list string) : map (fun n => "" +:+ n) names = names.
Proof. induction names as [|n rest IH]; [done|]. simpl. by rewrite IH. Qed.

Lemma publicfields_structLines fields :
  publicfields (map formatted fields) = strings.Join (map structLine fields) (nl +:+ tab).
Proof.
  unfold publicfields, FieldList. rewrite map_map. f_equal. apply map_ext.
  intros v. unfold structLine, formatted. simpl. by rewrite map_unprefixed.
Qed.

Lemma functionargs_arguments fields :
  functionargs (map formatted fields) = strings.Join (map argument fields) ", ".
Proof.
  unfold functionargs, FieldList. rewrite map_map. f_equal. apply map_ext.
  intros v. unfold argument, formatted. simpl. by rewrite map_unprefixed.
Qed.

Lemma flat_map_formatted_public fields :
  flat_map Type_.Names (map formatted fields) = map publicName (declared fields).
Proof.
  unfold declared. induction fields as [|v rest IH]; [done|].
  simpl. by rewrite map_app, IH.
Qed.

Lemma flat_map_formatted_lower fields :
  flat_map Type_.LowerNames (map formatted fields) = declared fields.
Proof.
  unfold declared. induction fields as [|v rest IH]; [done|].
  simpl. by rewrite IH.
Qed.

Lemma formatted_have_names fields :
  Forall (fun v => ast.Names v <> []) fields ->
  Forall (fun p => Type_.Names p <> [] /\ Type_.LowerNames p <> []) (map formatted fields).
Proof.
  induction 1 as [|v rest Hv _ IH]; constructor; [|exact IH].
  unfold formatted. simpl. split; [by destruct (ast.Names v)|done].
Qed.

Lemma publicrefs_fieldRefs prefix fields :
  Forall (fun v => ast.Names v <> []) fields ->
  publicrefswithprefix prefix (map formatted fields) = fieldRefs prefix fields.
Proof.
  intros Hall. unfold publicrefswithprefix, fieldRefs.
  rewrite (FieldList_references _ prefix true) by by apply formatted_have_names.
  by rewrite flat_map_formatted_public, map_map.
Qed.

Lemma refs_declared fields :
  Forall (fun v => ast.Names v <> []) fields ->
  refswithprefix "" (map formatted fields) = strings.Join (declared fields) ", ".
Proof.
  intros Hall. unfold refswithprefix.
  rewrite (FieldList_references _ "" false) by by apply formatted_have_names.
  by rewrite flat_map_formatted_lower, map_unprefixed.
Qed.

Lemma commaIf_commaAfter fields : commaIf (map formatted fields) = commaAfter fields.
Proof. by destruct fields. Qed.

Lemma serviceBlock_group type name params results :
  Forall (fun v => ast.Names v <> []) params ->
  Forall (fun v => ast.Names v <> []) results ->
  serviceBlock type (Method.mk name (map formatted params) (map formatted results))
  = serviceGroup type name params results.
Proof.
  intros Hp Hr. unfold serviceBlock, serviceGroup.
  cbn [Method.Name Method.Parameters Method.Results].
  by rewrite !publicfields_structLines, !publicrefs_fieldRefs, commaIf_commaAfter.
Qed.

Lemma clientBlock_group type service name params results :
  Forall (fun v => ast.Names v <> []) params ->
  Forall (fun v => ast.Names v <> []) results ->
  clientBlock type service (Method.mk name (map formatted params) (map formatted results))
  = clientGroup type service name params results.
Proof.
  intros Hp Hr. unfold clientBlock, clientGroup.
  cbn [Method.Name Method.Parameters Method.Results].
  by rewrite !functionargs_arguments, publicrefs_fieldRefs, refs_declared,
             commaIf_commaAfter.
Qed.

(** The groups rendered for the record of an accepted entry are the groups
    of its declaration. *)
Lemma visitMethod_groups type service m r u r' :
  visitMethod m r = Done u r' ->
  String.concat "" (map (serviceBlock type) (translate m)) = serviceGroupOf type m
  /\ String.concat "" (map (clientBlock type service) (translate m))
     = clientGroupOf type service m.
Proof.
  unfold translate, serviceGroupOf, clientGroupOf.
  destruct (ast.MType m) as [params results|e] eqn:Hty; [|done].
  destruct (ast.MNames m) as [|name names] eqn:Hname.
  { unfold visitMethod. by rewrite Hty, Hname. }
  rewrite (visitMethod_func _ _ _ _ _ _ Hty Hname).
  destruct (formatFields params r) as [ps r1|e] eqn:Hps; [|done].
  destruct (formatFields (resultList results) r1) as [rs r2|e] eqn:Hrs; [|done].
  intros _. apply formatFields_named in Hps, Hrs.
  apply keptResults_named in Hrs.
  rewrite <- map_formatted_kept. cbn [map String.concat].
  by rewrite serviceBlock_group, clientBlock_group.
Qed.

Lemma VisitMethodList_groups type service methods : forall r u r',
  VisitMethodList methods r = Done u r' ->
  String.concat "" (map (serviceBlock type) (flat_map translate methods))
  = String.concat "" (map (serviceGroupOf type) methods)
  /\ String.concat "" (map (clientBlock type service) (flat_map translate methods))
     = String.concat "" (map (clientGroupOf type service) methods).
Proof.
  induction methods as [|m rest IH]; intros r u r'; [done|].
  rewrite VisitMethodList_cons.
  destruct (visitMethod m r) as [u1 r1|e] eqn:Hm; [|done].
  intros Hrest. destruct (IH _ _ _ Hrest) as [IHs IHc].
  destruct (visitMethod_groups type service _ _ _ _ Hm) as [Hs Hc].
  cbn [flat_map map]. rewrite !map_app, !concat_empty_app, !concat_empty_cons.
  by rewrite Hs, Hc, IHs, IHc.
Qed.

(** C9. When the extractor accepts a method list, the [Method] records it
    appends are those of the function entries in declaration order, each
    with its parameters in declaration order and its results in declaration
    order less the ones of type [error]; and the rendered text carries,
    behind the groups of the methods the model held before, the service
    groups and the client groups of the entries in declaration order, where
    the group of an entry is written out from its declaration: the struct
    lines and the signature groups field by field in declaration order, the
    dispatcher arguments, the struct literal and the returned values
    identifier by identifier in declaration order. *)
Theorem extraction_keeps_declaration_order
    (methods : list ast.Method) (r r' : RPCGen.t) :
  VisitMethodList methods r = Done tt r' ->
  RPCGen.Methods r' = RPCGen.Methods r ++ flat_map translate methods /\
  render r' =
    header r' +:+ servicePreamble r' +:+
    (String.concat "" (map (serviceBlock (RPCGen.Type_ r')) (RPCGen.Methods r)) +:+
     String.concat "" (map (serviceGroupOf (RPCGen.Type_ r')) methods)) +:+
    clientPreamble r' +:+
    (String.concat ""
       (map (clientBlock (RPCGen.Type_ r') (RPCGen.Service r')) (RPCGen.Methods r)) +:+
     String.concat "" (map (clientGroupOf (RPCGen.Type_ r') (RPCGen.Service r')) methods)).
Proof.
  intros H.
  destruct (VisitMethodList_groups (RPCGen.Type_ r') (RPCGen.Service r') _ _ _ _ H)
    as [Hs Hc].
  apply VisitMethodList_Done in H as (HM & _ & _).
  split; [exact HM|]. unfold render.
  by rewrite HM, !map_app, !concat_empty_app, Hs, Hc.
Qed.

Lemma extraction_keeps_declaration_order_witness :
  exists r' r'',
    VisitMethodList sample_order.methods sample.gen0 = Done tt r'
    /\ RPCGen.Methods r'
       = [Method.mk "Stat"
            [Type_.mk ["Path"] ["path"] "string";
             Type_.mk ["Deep"; "Follow"] ["deep"; "follow"] "bool"]
            [Type_.mk ["Size"; "Count"] ["size"; "count"] "int";
             Type_.mk ["Name"] ["name"] "string"];
          Method.mk "Add" [Type_.mk ["A"; "B"] ["a"; "b"] "int"]
                          [Type_.mk ["Result"] ["result"] "int"]]
    /\ render r'
       = header r' +:+ servicePreamble r' +:+
         (serviceGroupOf "Arith" sample_order.Stat +:+ serviceGroupOf "Arith" sample.Add) +:+
         clientPreamble r' +:+
         (clientGroupOf "Arith" "Arith" sample_order.Stat +:+
          clientGroupOf "Arith" "Arith" sample.Add)
    /\ VisitMethodList (rev sample_order.methods) sample.gen0 = Done tt r''
    /\ map Method.Name (RPCGen.Methods r'') = ["Add"; "Stat"].
Proof.
  assert (exists r', VisitMethodList sample_order.methods sample.gen0 = Done tt r'
                     /\ RPCGen.Type_ r' = "Arith" /\ RPCGen.Service r' = "Arith")
    as (r' & H & HT & HS) by (eexists; split_and!; [vm_compute; reflexivity|done..]).
  assert (exists r'', VisitMethodList (rev sample_order.methods) sample.gen0 = Done tt r'')
    as (r'' & H') by (eexists; vm_compute; reflexivity).
  destruct (extraction_keeps_declaration_order _ _ _ H) as [HM Hr].
  destruct (extraction_keeps_declaration_order _ _ _ H') as [HM' _].
  exists r', r''. split_and!.
  - exact H.
  - rewrite HM. reflexivity.
  - rewrite Hr, HT, HS. vm_compute. reflexivity.
  - exact H'.
  - rewrite HM'. reflexivity.
Defined.

(** The groups of [Stat(path string, deep, follow bool) (size, count int,
    name string, err error)], line by line. *)
Example groups_of_Stat :
  serviceGroupOf "Arith" sample_order.Stat
  = nl +:+
    "type ArithStatRequest struct {" +:+ nl +:+
    tab +:+ "Path string" +:+ nl +:+
    tab +:+ "Deep, Follow bool" +:+ nl +:+
    "}" +:+ nl +:+
    nl +:+
    "type ArithStatResponse struct {" +:+ nl +:+
    tab +:+ "Size, Count int" +:+ nl +:+
    tab +:+ "Name string" +:+ nl +:+
    "}" +:+ nl +:+
    nl +:+
    "func (s *ArithService) Stat(request *ArithStatRequest, response *ArithStatResponse) (err error) {" +:+ nl +:+
    tab +:+ "response.Size, response.Count, response.Name, err = s.impl.Stat(request.Path, request.Deep, request.Follow)" +:+ nl +:+
    tab +:+ "return" +:+ nl +:+
    "}" +:+ nl
  /\ clientGroupOf "Arith" "Calc" sample_order.Stat
     = nl +:+
       "func (_c *ArithClient) Stat(path string, deep, follow bool) (size, count int, name string, err error) {" +:+ nl +:+
       tab +:+ "_request := &ArithStatRequest{path, deep, follow}" +:+ nl +:+
       tab +:+ "_response := &ArithStatResponse{}" +:+ nl +:+
       tab +:+ "err = _c.client.Call(" +:+ dq +:+ "Calc.Stat" +:+ dq +:+ ", _request, _response)" +:+ nl +:+
       tab +:+ "return _response.Size, _response.Count, _response.Name, err" +:+ nl +:+
       "}" +:+ nl.
Proof. split; vm_compute; reflexivity. Qed.

(** ** The entries of the final import set *)






















